(** * Daily sales reconciliation workflow

    A shallow embedding of [src/lambda_function.py] (the durable workflow
    [lambda_handler] and the steps it calls) and the verification of the
    properties its specification states.

    - Python integers are [Z]; the two float products of [process_record]
      are IEEE-754 binary64 operations, taken from the Standard Library's
      [SpecFloat] (round to nearest, ties to even).
    - A sales record is a Python dict with a fixed set of keys; the three
      keys that enrichment adds are optional fields.
    - Everything the workflow does to the outside world (object storage,
      approval callback, ledger API, durable waits) is recorded as a trace
      of [event]s; exceptions are an explicit outcome.  The answers of the
      outside world are collected in a [world].
    - The durable runtime is not part of the repository.  Its primitives
      are modelled from section 6 of the specification and from the way the
      handler uses them: what [context.map] hands back when a batch fails,
      how the answer of a retry strategy is read, and the re-run of the
      handler from the top at every resumption. *)

From Stdlib Require Import ZArith Lia Bool.
From Stdlib Require Import Floats.SpecFloat.
From stdpp Require Import base list strings pretty.

Local Open Scope Z_scope.

(* ===================================================================== *)
(** * Part I: the program *)
(* ===================================================================== *)

(** ** Python numbers *)

Module Py.

(** binary64: 53 bits of precision, exponent of the infinities 1024. *)
Definition prec : Z := 53.
Definition emax : Z := 1024.

(** [float(a)] for a Python int: correctly rounded, [OverflowError]
    ([None]) when the rounded value is not finite. *)
Definition float_of_int (a : Z) : option spec_float :=
  match binary_normalize prec emax a 0 false with
  | S754_infinity _ => None
  | S754_nan => None
  | x => Some x
  end.

Definition float_mul (x y : spec_float) : spec_float := SFmul prec emax x y.

(** [int(x)] for a float: truncation towards zero; an infinity raises
    [OverflowError] and a NaN [ValueError] ([None]). *)
Definition int_of_float (x : spec_float) : option Z :=
  match x with
  | S754_zero _ => Some 0
  | S754_finite s m e =>
      let v := if 0 <=? e then Z.shiftl (Z.pos m) e
               else Z.shiftr (Z.pos m) (- e) in
      Some (if s then - v else v)
  | S754_infinity _ => None
  | S754_nan => None
  end.

(** A decimal literal [num/den] denotes the double nearest to it. *)
Definition float_literal (num den : Z) : spec_float :=
  SFdiv prec emax (binary_normalize prec emax num 0 false)
                  (binary_normalize prec emax den 0 false).

(** The literals [0.1] and [1.1]. *)
Definition float_0_1 : spec_float := Eval vm_compute in float_literal 1 10.
Definition float_1_1 : spec_float := Eval vm_compute in float_literal 11 10.

(** [int(a * c)] for an int [a] and a float [c]: the int operand is
    converted to a float first. *)
Definition int_mul_float (a : Z) (c : spec_float) : option Z :=
  match float_of_int a with
  | Some x => int_of_float (float_mul x c)
  | None => None
  end.

(** [range(0, stop, step)] for [step > 0]: its length is
    [ceil(stop / step)]. *)
Definition range (stop step : nat) : list nat :=
  (λ k, k * step)%nat <$> seq 0 ((stop + step - 1) `div` step)%nat.

(** The slice [l[i:j]] for [0 <= i <= j]. *)
Definition slice {A} (l : list A) (i j : nat) : list A :=
  take (j - i) (drop i l).

End Py.

(** ** Constants (lines 14-18) *)

Definition HIGH_VALUE_THRESHOLD : Z := 1000000.
Definition BATCH_SIZE : nat := 100.
Definition API_BATCH_SIZE : nat := 1000.
Definition API_RATE_LIMIT_WAIT_SECONDS : Z := 10.

(** ** Data model *)

(** A sales record: the eight keys [fetch_sales_data] builds, and the three
    keys [process_record] adds ([None] while the key is absent). *)
Record record := mk_record {
  id : string;
  customer_name : string;
  product : string;
  amount : Z;
  quantity : Z;
  region : string;
  category : string;
  timestamp : string;
  tax : option Z;
  total : option Z;
  processed : option bool
}.

#[global] Instance record_eq_dec : EqDecision record.
Proof. solve_decision. Defined.

(** The two JSON documents [generate_report] stores. *)
Inductive s3_body :=
| RejectedReport (date : string) (rejected_count : nat) (total_amount : Z)
                 (records : list record)
| SummaryReport (date : string) (total_approved total_rejected : nat)
                (approved_sales rejected_sales : Z).

(** What [callback.result()] gives back, read through
    [json.loads(... or '{}')] and [.get('approved_ids', [])]: nothing, or a
    JSON object of the shape [{approved_ids: [string]}] (section 6). *)
Inductive callback_result :=
| ResultNone                                   (* [None] *)
| ResultEmpty                                  (* the empty string *)
| ResultJson (approved_ids : option (list string)).
                                               (* a JSON object, with or
                                                  without ['approved_ids'] *)

(** Exceptions. *)
Inductive exn :=
| NoSuchKey        (* [s3.get_object] on an object that does not exist *)
| OverflowError    (* int too large for a float, or [int] of an infinity *)
| SyncFailure      (* the ledger call raised *)
| AttributeError   (* an attribute read on a value that has none of it *)
| S3Error.         (* [s3.put_object] refused by the object store *)

(** The values a retry strategy can hand back to the runtime: a dict of
    scalars with string keys (what lines 252-255 build), or an instance of
    the runtime's [RetryDecision] class. *)
Inductive py_scalar :=
| PyBool (b : bool)
| PyInt (n : Z).

Inductive py_value :=
| PyDict (items : list (string * py_scalar))
| PyRetryDecision (should_retry : bool) (delay : Z).

(** Interactions with the outside world, in the order they happen. *)
Inductive event :=
| EvGetObject (bucket key : string)
| EvCreateCallback (name : string) (timeout_days : Z)
| EvApprovalRequest (callback_id : string) (high_value_count : nat)
                    (date : string)
| EvAwaitCallback (callback_id : string) (* [callback.result()] *)
| EvSync (records : list record)         (* a ledger call that returned *)
| EvSyncFailed (records : list record)   (* a ledger call that raised *)
| EvRetryDelay (seconds : Z)             (* backoff before the next attempt *)
| EvWait (seconds : Z)                   (* [context.wait] *)
| EvPutObject (bucket key : string) (body : s3_body)   (* an object stored *)
| EvPutFailed (bucket key : string) (body : s3_body).  (* a store refused *)

(** The outside world.  The objects of the store do not change while the
    workflow runs. *)
Record world := World {
  (** the parsed rows of the object [key] of [bucket], if it exists *)
  s3_objects : string → string → option (list record);
  (** the token of the approval callback *)
  callback_id : string;
  (** the decision the approver sends *)
  callback_payload : callback_result;
  (** how many times in a row the ledger call for the batch starting at
      offset [i] raises before it would return *)
  sync_failures : nat → nat;
  (** whether the object store refuses to store the object [key] of
      [bucket] *)
  put_fails : string → string → bool;
  (** when an item of [context.map] has failed: whether the item of the
      given index had completed by the time the runtime stopped the map *)
  map_completed : nat → bool
}.

(** ** The workflow monad: a trace of events and a result or an exception *)

Inductive outcome (A : Type) :=
| Done (a : A)
| Raise (e : exn).
Arguments Done {A} a.
Arguments Raise {A} e.

Definition M (A : Type) : Type := list event * outcome A.

#[global] Instance M_ret : MRet M := λ A a, ([], Done a).
#[global] Instance M_bind : MBind M := λ A B f m,
  match m with
  | (t, Done a) => let '(t', r) := f a in (t ++ t', r)
  | (t, Raise e) => (t, Raise e)
  end.

Definition emit (e : event) : M unit := ([e], Done tt).
Definition raise {A} (e : exn) : M A := ([], Raise e).
Definition of_option {A} (e : exn) (o : option A) : M A :=
  match o with Some a => mret a | None => raise e end.

Definition trace {A} (m : M A) : list event := m.1.
Definition result {A} (m : M A) : outcome A := m.2.
Definition is_done {A} (o : outcome A) : bool :=
  match o with Done _ => true | Raise _ => false end.

(** [for x in l: body(x)] *)
Fixpoint for_each {A} (l : list A) (body : A → M unit) : M unit :=
  match l with
  | [] => mret tt
  | x :: l' => _ ← body x; for_each l' body
  end.

(** ** The durable runtime *)

(** Modelled from the spec: [context.step] without a retry strategy runs
    the step (section 6, [step(fn, retryPolicy?)]).  An exception of the
    step goes through; the retries the runtime may make of its own accord
    before it gives up are not modelled. *)
Definition context_step {A} (step : M A) : M A := step.

(** Modelled from the spec: how the runtime reads the answer of a retry
    strategy (section 6, [step(fn, retryPolicy?)]).  It expects an instance
    of its [RetryDecision] class and reads the attributes [should_retry]
    and [delay] of the answer; a value of another type, a dict among them,
    has no such attribute, and the read raises [AttributeError]. *)
Definition read_retry_decision (answer : py_value) : M (bool * Z) :=
  match answer with
  | PyRetryDecision should_retry delay => mret (should_retry, delay)
  | _ => raise AttributeError
  end.

(** Modelled from the spec: [context.step] with a retry strategy (section 6
    and section 4.4).  The step is attempted; when the attempt raises, the
    strategy is asked with the exception and the number [n] of attempts made
    so far (1 after the first failure), and its answer is read: it either
    grants another attempt after [delay] seconds or lets the exception
    through.  An exception raised while the answer is read ends the step.
    [failures] is the number of attempts in a row the outside world lets
    raise. *)
Fixpoint context_step_retry {A} (retry_strategy : exn → Z → py_value)
    (step : M A) (failed : event) (e : exn) (failures : nat) (n : Z) : M A :=
  match failures with
  | O => step
  | S failures' =>
      _ ← emit failed;
      '(should_retry, delay) ← read_retry_decision (retry_strategy e n);
      if should_retry : bool
      then _ ← emit (EvRetryDelay delay);
           context_step_retry retry_strategy step failed e failures' (n + 1)
      else raise e
  end.

(** Modelled from the spec: [context.map] (section 6, [mapBatches]) as
    lines 208-219 use it.  The function is applied to every item with its
    index and the whole list.  The call does not raise when an item fails:
    it hands back a result object, and [get_results()] (line 218) gives the
    results of the items that succeeded, in the order of the items.  With
    [CompletionConfig.all_successful()] the runtime stops the map at the
    first failure, and an item that had not completed by then has no result
    either; which items had is up to the scheduling of the runtime
    ([map_completed]). *)
Definition context_map {A B} (w : world) (items : list A)
    (f : A → nat → list A → M B) : M (list B) :=
  let runs := imap (λ index item, f item index items) items in
  let all_successful := forallb (λ run, is_done (result run)) runs in
  (concat (trace <$> runs),
   Done (omap (λ r, r)
           (imap (λ index run,
                    match result run with
                    | Done b =>
                        if all_successful || map_completed w index
                        then Some b else None
                    | Raise _ => None
                    end) runs))).

(** Modelled from the spec: [context.create_callback] registers a callback
    and hands out its token (section 6, [createCallback]). *)
Definition context_create_callback (w : world) (name : string)
    (timeout_days : Z) : M string :=
  _ ← emit (EvCreateCallback name timeout_days);
  mret (callback_id w).

(** Modelled from the spec: [callback.result()] (section 6,
    [awaitCallback]): the run waits for the decision of the approver and
    gets its payload.  What happens when the deadline passes is not
    modelled: the world always holds a decision. *)
Definition context_callback_result (w : world) (callback : string)
    : M callback_result :=
  _ ← emit (EvAwaitCallback callback);
  mret (callback_payload w).

(** Modelled from the spec: [context.wait] (section 6, [wait(duration)]). *)
Definition context_wait (seconds : Z) : M unit := emit (EvWait seconds).

(** The events at which the invocation ends and the run is resumed later:
    the wait for the decision, the delay before a retry and
    [context.wait] (section 5, suspension points). *)
Definition suspends (e : event) : bool :=
  match e with
  | EvAwaitCallback _ | EvRetryDelay _ | EvWait _ => true
  | _ => false
  end.

(** The events of code that runs outside every operation of the context:
    [fetch_sales_data] is called directly (line 204), it is no step. *)
Definition outside_operations (e : event) : bool :=
  match e with EvGetObject _ _ => true | _ => false end.

(** The trace of a handler that is run again from the top at every
    resumption: the operations of the context that have completed are not
    run again, the code outside them is.  [again] holds the events of that
    code so far. *)
Fixpoint replay (again t : list event) : list event :=
  match t with
  | [] => []
  | e :: t' =>
      let again' := if outside_operations e then again ++ [e] else again in
      e :: (if suspends e then again' else []) ++ replay again' t'
  end.

(** Modelled from the spec: [@durable_execution] (section 5: the
    suspensions are checkpoints, the host process is torn down and the run
    is resumed). *)
Definition durable_execution {A} (handler : M A) : M A :=
  (replay [] (trace handler), result handler).

(** ** The steps *)

(** Lines 27-52.  Decoding the CSV text is not modelled: the world holds
    the rows already read. *)
Definition fetch_sales_data (w : world) (bucket key : string)
    : M (list record) :=
  _ ← emit (EvGetObject bucket key);
  of_option NoSuchKey (s3_objects w bucket key).

(** [{**record, 'tax': tax', 'total': total', 'processed': True}] *)
Definition with_enrichment (r : record) (tax' total' : Z) : record :=
  {| id := id r; customer_name := customer_name r;
     product := product r; amount := amount r;
     quantity := quantity r; region := region r;
     category := category r; timestamp := timestamp r;
     tax := Some tax'; total := Some total';
     processed := Some true |}.

(** Lines 59-66.  [time.sleep(0.05)] has no effect on the result. *)
Definition process_record (r : record) : M record :=
  tax' ← of_option OverflowError (Py.int_mul_float (amount r) Py.float_0_1);
  total' ← of_option OverflowError (Py.int_mul_float (amount r) Py.float_1_1);
  mret (with_enrichment r tax' total').

(** Lines 73-82. *)
Definition process_batch (batch : list record) (index : nat)
    (all_batches : list (list record)) : M (list record) :=
  mapM process_record batch.

(** Lines 88-99. *)
Definition extract_high_value_ids (records : list record) (threshold : Z)
    : M (list string) :=
  mret (id <$> filter (λ r, threshold ≤ amount r) records).

(** Lines 106-123. *)
Definition send_approval_request (callback_id : string)
    (high_value_count : nat) (date : string) : M (bool * nat) :=
  _ ← emit (EvApprovalRequest callback_id high_value_count date);
  mret (true, high_value_count).

(** Lines 131-142. *)
Definition sync_to_external_api (records : list record) : M nat :=
  _ ← emit (EvSync records);
  mret (length records).

(** [sum(r['amount'] for r in records)] *)
Definition sum_amount (records : list record) : Z :=
  foldl (λ acc r, acc + amount r) 0 records.

Record report := Report {
  summary_url : string;
  rejected_url : option string
}.

(** [s3.put_object]: it raises when the object store refuses the store. *)
Definition s3_put_object (w : world) (bucket key : string) (body : s3_body)
    : M unit :=
  if put_fails w bucket key
  then _ ← emit (EvPutFailed bucket key body); raise S3Error
  else emit (EvPutObject bucket key body).

Definition rejected_key (date : string) : string :=
  "rejected/" +:+ date +:+ "-rejected.json".
Definition summary_key (date : string) : string :=
  "reports/" +:+ date +:+ "-report.json".
Definition s3_url (bucket key : string) : string :=
  "s3://" +:+ bucket +:+ "/" +:+ key.

(** Lines 150-192. *)
Definition generate_report (w : world) (bucket date : string)
    (approved_records rejected_records : list record) : M report :=
  rejected_url' ←
    match rejected_records with
    | [] => mret None
    | _ :: _ =>
        let rejected_report :=
          RejectedReport date (length rejected_records)
                         (sum_amount rejected_records) rejected_records in
        _ ← s3_put_object w bucket (rejected_key date) rejected_report;
        mret (Some (s3_url bucket (rejected_key date)))
    end;
  let approved_sales := sum_amount approved_records in
  let rejected_sales := sum_amount rejected_records in
  let summary_report :=
    SummaryReport date (length approved_records) (length rejected_records)
                  approved_sales rejected_sales in
  _ ← s3_put_object w bucket (summary_key date) summary_report;
  mret {| summary_url := s3_url bucket (summary_key date);
          rejected_url := rejected_url' |}.

(** ** The workflow (lines 199-276), stage by stage *)

(** Lines 207-219: the records are cut into batches of [BATCH_SIZE], the
    batches are processed through [context.map] and the results it hands
    back are concatenated in the order of the batches.  No line looks at
    whether a batch has failed. *)
Definition enricher (w : world) (records : list record) : M (list record) :=
  let batches :=
    (λ i, Py.slice records i (i + BATCH_SIZE))
      <$> Py.range (length records) BATCH_SIZE in
  map_result ← context_map w batches process_batch;
  mret (concat map_result).

(** Line 236 after line 235: [json.loads(callback.result() or '{}')] and
    [.get('approved_ids', [])]. *)
Definition approved_ids_of (payload : callback_result) : list string :=
  match payload with
  | ResultNone | ResultEmpty => []
  | ResultJson None => []
  | ResultJson (Some ids) => ids
  end.

(** Lines 222-240: the ids of the high-value records, and for a non-empty
    list the approval callback; the result is the pair
    [(approved_ids, rejected_ids)].  The list [rejected_records] that line
    240 builds is built again at line 261 before it is first read. *)
Definition approval_gate (w : world) (date : string)
    (processed : list record) : M (list string * list string) :=
  high_value_ids ←
    context_step (extract_high_value_ids processed HIGH_VALUE_THRESHOLD);
  match high_value_ids with
  | [] => mret ([], [])
  | _ :: _ =>
      callback ←
        context_create_callback w "high-value-transaction-approval" 3;
      _ ← context_step
            (send_approval_request callback (length high_value_ids) date);
      payload ← context_callback_result w callback;
      let approved_ids := approved_ids_of payload in
      let rejected_ids := filter (λ i, i ∉ approved_ids) high_value_ids in
      mret (approved_ids, rejected_ids)
  end.

(** Lines 243-246. *)
Definition select_approved (processed : list record)
    (approved_ids : list string) : list record :=
  filter (λ r, amount r < HIGH_VALUE_THRESHOLD ∨ id r ∈ approved_ids)
         processed.

(** Line 261. *)
Definition select_rejected (processed : list record)
    (rejected_ids : list string) : list record :=
  filter (λ r, id r ∈ rejected_ids) processed.

(** Lines 252-255: the retry strategy of the ledger step: a lambda that
    answers with a dict of two keys.  [n] is at least 1 when the runtime
    calls it. *)
Definition retry_strategy (e : exn) (n : Z) : py_value :=
  PyDict [("should_retry", PyBool (n <? 5));
          ("delay", PyInt (Z.min (5 * 2 ^ (n - 1)) 60))].

(** Lines 248-258. *)
Definition ledger_sync (w : world) (approved_records : list record)
    : M unit :=
  for_each (Py.range (length approved_records) API_BATCH_SIZE) (λ i,
    let batch := Py.slice approved_records i (i + API_BATCH_SIZE) in
    _ ← context_step_retry retry_strategy (sync_to_external_api batch)
          (EvSyncFailed batch) SyncFailure (sync_failures w i) 1;
    if decide (i + API_BATCH_SIZE < length approved_records)%nat
    then context_wait API_RATE_LIMIT_WAIT_SECONDS
    else mret tt).

Record response := Response {
  resp_status : string;
  resp_date : string;
  resp_total_records : nat;
  resp_approved_records : nat;
  resp_rejected_records : nat;
  resp_report_url : string
}.

(** Lines 200-276, the body of the handler.  [bucket] is [BUCKET_NAME] and
    [date] is [event['date']]. *)
Definition lambda_handler_body (w : world) (bucket date : string)
    : M response :=
  records ← fetch_sales_data w bucket ("sales/" +:+ date +:+ ".csv");
  processed ← enricher w records;
  '(approved_ids, rejected_ids) ← approval_gate w date processed;
  let approved_records := select_approved processed approved_ids in
  _ ← ledger_sync w approved_records;
  let rejected_records := select_rejected processed rejected_ids in
  report ← context_step
             (generate_report w bucket date approved_records
                rejected_records);
  mret {| resp_status := "completed";
          resp_date := date;
          resp_total_records := length records;
          resp_approved_records := length approved_records;
          resp_rejected_records := length rejected_records;
          resp_report_url := summary_url report |}.

(** Lines 198-199: the handler under [@durable_execution]. *)
Definition lambda_handler (w : world) (bucket date : string) : M response :=
  durable_execution (lambda_handler_body w bucket date).

(** ** The stages as the specification words them *)

(** Consecutive batches of [n] elements, the last one possibly smaller. *)
Fixpoint chunks_fuel {A} (fuel n : nat) (l : list A) : list (list A) :=
  match fuel, l with
  | O, _ | _, [] => []
  | S fuel', _ :: _ => take n l :: chunks_fuel fuel' n (drop n l)
  end.
Definition chunks {A} (n : nat) (l : list A) : list (list A) :=
  chunks_fuel (length l) n l.

(** One ledger step for the batch at offset [i], with what the runtime
    makes of its failures. *)
Definition sync_batch (w : world) (i : nat) (batch : list record) : M nat :=
  context_step_retry retry_strategy (sync_to_external_api batch)
    (EvSyncFailed batch) SyncFailure (sync_failures w i) 1.

(** The batches one after the other, a rate-limit wait after every batch
    but the last; [i] is the offset of the first batch. *)
Fixpoint sync_batches (w : world) (i : nat) (batches : list (list record))
    : M unit :=
  match batches with
  | [] => mret tt
  | batch :: rest =>
      _ ← sync_batch w i batch;
      _ ← match rest with
          | [] => mret tt
          | _ :: _ => context_wait API_RATE_LIMIT_WAIT_SECONDS
          end;
      sync_batches w (i + API_BATCH_SIZE) rest
  end.

(** The ids of the high-value records (section 4.3, Extract). *)
Definition high_value_ids_of (processed : list record) : list string :=
  id <$> filter (λ r, HIGH_VALUE_THRESHOLD ≤ amount r) processed.

(** The ReconciliationResult (section 3): the approved and the rejected
    records, as the workflow computes them from the outcome of the gate. *)
Definition reconcile (w : world) (date : string) (processed : list record)
    : M (list record * list record) :=
  '(approved_ids, rejected_ids) ← approval_gate w date processed;
  mret (select_approved processed approved_ids,
        select_rejected processed rejected_ids).

(** What the Enricher keeps of the batch of the given index: its records
    enriched, unless a record of the batch fails, or a record of another
    batch does and this batch had not completed by then. *)
Definition kept_result (w : world) (all_successful : bool) (index : nat)
    (batch : list record) : option (list record) :=
  match result (mapM process_record batch) with
  | Done out =>
      if all_successful || map_completed w index then Some out else None
  | Raise _ => None
  end.

(** The backoff delays of a trace, in order. *)
Definition retry_delays (t : list event) : list Z :=
  omap (λ e, match e with EvRetryDelay s => Some s | _ => None end) t.

(** The number of calls to the ledger in a trace, failed or not. *)
Definition sync_attempts (t : list event) : nat :=
  length (omap (λ e, match e with
                     | EvSync b | EvSyncFailed b => Some b
                     | _ => None
                     end) t).

(** The events of the ledger stage: calls, backoff delays and waits. *)
Definition is_ledger_event (e : event) : bool :=
  match e with
  | EvSync _ | EvSyncFailed _ | EvRetryDelay _ | EvWait _ => true
  | _ => false
  end.

(** The trace of a ledger stage in which every call returns: one call per
    batch, a rate-limit wait between two batches. *)
Fixpoint sync_trace (batches : list (list record)) : list event :=
  match batches with
  | [] => []
  | batch :: rest =>
      EvSync batch ::
      match rest with
      | [] => []
      | _ :: _ => EvWait API_RATE_LIMIT_WAIT_SECONDS :: sync_trace rest
      end
  end.

(** The trace of a ledger stage whose calls return for the batches [done]
    and in which the call for the next batch, [batch], raises. *)
Definition failed_sync_trace (done : list (list record))
    (batch : list record) : list event :=
  concat ((λ b, [EvSync b; EvWait API_RATE_LIMIT_WAIT_SECONDS]) <$> done) ++
  [EvSyncFailed batch].

(** The batches of the calls that returned, in order, and the rate-limit
    waits of a trace. *)
Definition synced_batches (t : list event) : list (list record) :=
  omap (λ e, match e with EvSync b => Some b | _ => None end) t.
Definition rate_limit_waits (t : list event) : list Z :=
  omap (λ e, match e with EvWait s => Some s | _ => None end) t.

(** The eight keys of a record as [fetch_sales_data] builds it: the keys
    enrichment adds are dropped. *)
Definition base_fields (r : record) : record :=
  {| id := id r; customer_name := customer_name r;
     product := product r; amount := amount r;
     quantity := quantity r; region := region r;
     category := category r; timestamp := timestamp r;
     tax := None; total := None; processed := None |}.

(** ** Sample data *)

(** A row as ingested, with the given id and amount. *)
Definition sale (i : string) (a : Z) : record :=
  {| id := i; customer_name := "ACME"; product := "dryer"; amount := a;
     quantity := 1; region := "Tokyo"; category := "beauty";
     timestamp := "2025-01-15T09:00:00";
     tax := None; total := None; processed := None |}.

Definition sample_sales : list record :=
  [sale "S-0001" 15; sale "S-0002" 2000000; sale "S-0003" 1000000;
   sale "S-0004" 999999].

Definition sample_processed : list record :=
  [with_enrichment (sale "S-0001" 15) 1 16;
   with_enrichment (sale "S-0002" 2000000) 200000 2200000;
   with_enrichment (sale "S-0003" 1000000) 100000 1100000;
   with_enrichment (sale "S-0004" 999999) 99999 1099998].

(** A world in which the approver approves S-0002 (and an id that is not
    flagged) and the ledger answers at once. *)
Definition sample_world : world :=
  {| s3_objects := λ _ key,
       if decide (key = "sales/2025-01-15.csv") then Some sample_sales
       else None;
     callback_id := "cb-1";
     callback_payload := ResultJson (Some ["S-0002"; "S-9999"]);
     sync_failures := λ _, 0%nat;
     put_fails := λ _ _, false;
     map_completed := λ _, true |}.

(** A world in which every call to the ledger raises. *)
Definition failing_world : world :=
  {| s3_objects := s3_objects sample_world;
     callback_id := "cb-1";
     callback_payload := ResultNone;
     sync_failures := λ _, 1000%nat;
     put_fails := λ _ _, false;
     map_completed := λ _, true |}.

(** [n] rows below the threshold, with the ids S-0, S-1, ... and the
    amounts 1, 2, ... *)
Definition many_sales (n : nat) : list record :=
  (λ k, sale ("S-" +:+ pretty k) (Z.of_nat k + 1)) <$> seq 0 n.

(** The end-to-end scenario of section 8: 250 rows, two of them at or above
    the threshold, of which the approver approves one. *)
Definition scenario_sales : list record :=
  many_sales 248 ++ [sale "H-1" 1000000; sale "H-2" 5000000].

Definition scenario_world : world :=
  {| s3_objects := λ _ key,
       if decide (key = "sales/2025-01-15.csv") then Some scenario_sales
       else None;
     callback_id := "cb-1";
     callback_payload := ResultJson (Some ["H-2"]);
     sync_failures := λ _, 0%nat;
     put_fails := λ _ _, false;
     map_completed := λ _, true |}.

(** ** Further observations *)

(** The batches handed to the ledger in a trace, whether the call returned
    or raised, in order. *)
Definition attempted_batches (t : list event) : list (list record) :=
  omap (λ e, match e with
             | EvSync b | EvSyncFailed b => Some b
             | _ => None
             end) t.

(** The summary documents stored in a trace. *)
Definition stored_summaries (t : list event) : list s3_body :=
  omap (λ e, match e with
             | EvPutObject _ _ (SummaryReport d a r sa sr) =>
                 Some (SummaryReport d a r sa sr)
             | _ => None
             end) t.

(** The approval requests of a trace: the number of flagged records each
    one carries. *)
Definition approval_requests (t : list event) : list nat :=
  omap (λ e, match e with
             | EvApprovalRequest _ n _ => Some n
             | _ => None
             end) t.

(** The callbacks created in a trace. *)
Definition created_callbacks (t : list event) : list string :=
  omap (λ e, match e with
             | EvCreateCallback name _ => Some name
             | _ => None
             end) t.

(** The sum of a list of integers. *)
Definition sum_Z (l : list Z) : Z := foldr Z.add 0 l.

(** A float with its sign replaced. *)
Definition set_sign (s : bool) (x : spec_float) : spec_float :=
  match x with
  | S754_zero _ => S754_zero s
  | S754_infinity _ => S754_infinity s
  | S754_nan => S754_nan
  | S754_finite _ m e => S754_finite s m e
  end.

(** A world in which the ledger answers for the first batch and raises for
    the second. *)
Definition second_batch_failing_world : world :=
  {| s3_objects := s3_objects sample_world;
     callback_id := "cb-1";
     callback_payload := ResultNone;
     sync_failures := λ i, if decide (i = 1000%nat) then 5%nat else 0%nat;
     put_fails := λ _ _, false;
     map_completed := λ _, true |}.

(** The seconds a trace spends waiting: backoff delays and rate-limit
    waits. *)
Definition waited_seconds (t : list event) : Z :=
  sum_Z (omap (λ e, match e with
                    | EvRetryDelay s | EvWait s => Some s
                    | _ => None
                    end) t).

(** The events of the approval gate. *)
Definition is_gate_event (e : event) : bool :=
  match e with
  | EvCreateCallback _ _ | EvApprovalRequest _ _ _ | EvAwaitCallback _ => true
  | _ => false
  end.

(** The events of the report stage: stores, accepted or refused. *)
Definition is_store_event (e : event) : bool :=
  match e with
  | EvPutObject _ _ _ | EvPutFailed _ _ _ => true
  | _ => false
  end.

(** The requests for an object in a trace. *)
Definition object_requests (t : list event) : list (string * string) :=
  omap (λ e, match e with
             | EvGetObject bucket key => Some (bucket, key)
             | _ => None
             end) t.

(** A trace in which the events [again] come again after every
    suspension. *)
Definition resumed (again t : list event) : list event :=
  concat ((λ e, e :: (if suspends e then again else [])) <$> t).

(** A trace without its requests for an object. *)
Definition without_requests (t : list event) : list event :=
  filter (λ e, outside_operations e = false) t.


(** Two rows, the second with an amount that no double holds. *)
Definition overflow_sales : list record :=
  [sale "S-0001" 15; sale "S-0002" (2 ^ 1024)].

Definition overflow_world : world :=
  {| s3_objects := λ _ _, Some overflow_sales;
     callback_id := "cb-1";
     callback_payload := ResultNone;
     sync_failures := λ _, 0%nat;
     put_fails := λ _ _, false;
     map_completed := λ _, true |}.

(* ===================================================================== *)
(** * Part II: verification *)
(* ===================================================================== *)

(** ** binary64 rounding *)

Section Binary64.

Lemma digits2_pos_bounds (p : positive) :
  2 ^ (Z.pos (digits2_pos p) - 1) ≤ Z.pos p < 2 ^ Z.pos (digits2_pos p).
Proof.
  induction p as [p IH|p IH|]; cbn [digits2_pos];
    [rewrite Pos2Z.inj_succ..|simpl; lia];
    replace (Z.succ (Z.pos (digits2_pos p)) - 1)
      with (Z.succ (Z.pos (digits2_pos p) - 1)) by lia;
    rewrite !Z.pow_succ_r by lia; lia.
Qed.

Lemma Zdigits2_bounds (m : Z) :
  0 < m → 2 ^ (Zdigits2 m - 1) ≤ m < 2 ^ Zdigits2 m.
Proof. destruct m; try lia. intros _. apply digits2_pos_bounds. Qed.

Lemma Zdigits2_unique (m d : Z) :
  0 < m → 2 ^ (d - 1) ≤ m < 2 ^ d → Zdigits2 m = d.
Proof.
  intros Hm [Hlo Hhi]. pose proof (Zdigits2_bounds m Hm) as [Hlo' Hhi'].
  assert (0 < Zdigits2 m) by (destruct m; try lia; reflexivity).
  assert (0 < d).
  { destruct (Z_lt_le_dec 0 d) as [|Hd]; [done|].
    pose proof (Z.pow_le_mono_r 2 d 0 ltac:(lia) Hd). simpl in *. lia. }
  assert (d - 1 < Zdigits2 m) by (apply (Z.pow_lt_mono_r_iff 2); lia).
  assert (Zdigits2 m - 1 < d) by (apply (Z.pow_lt_mono_r_iff 2); lia).
  lia.
Qed.

(** The right shift of [SpecFloat] is an iteration of [shr_1]. *)
Lemma iter_pos_nat {A} (f : A → A) (n : positive) (x : A) :
  SpecFloat.iter_pos f n x = Nat.iter (Pos.to_nat n) f x.
Proof.
  revert x. induction n as [n IH|n IH|]; intros x; cbn [SpecFloat.iter_pos].
  - rewrite !IH, Pos2Nat.inj_xI.
    replace (S (2 * Pos.to_nat n))%nat
      with (Pos.to_nat n + (Pos.to_nat n + 1))%nat by lia.
    by rewrite !Nat.iter_add.
  - rewrite !IH, Pos2Nat.inj_xO.
    replace (2 * Pos.to_nat n)%nat
      with (Pos.to_nat n + Pos.to_nat n)%nat by lia.
    by rewrite Nat.iter_add.
  - done.
Qed.

Lemma shr_1_m mrs :
  0 ≤ shr_m mrs →
  shr_m (shr_1 mrs) = shr_m mrs / 2 ∧ shr_r (shr_1 mrs) = Z.odd (shr_m mrs).
Proof.
  destruct mrs as [m r s]. cbn [shr_m]. intros Hm.
  rewrite <- Z.div2_div.
  destruct m as [|[p|p|]|p]; try lia; split; reflexivity.
Qed.

Lemma iter_shr_1_m (k : nat) mrs :
  0 ≤ shr_m mrs →
  shr_m (Nat.iter k shr_1 mrs) = shr_m mrs / 2 ^ Z.of_nat k.
Proof.
  intros Hm. induction k as [|k IH].
  - simpl. by rewrite Z.div_1_r.
  - change (Nat.iter (S k) shr_1 mrs) with (shr_1 (Nat.iter k shr_1 mrs)).
    assert (0 ≤ shr_m (Nat.iter k shr_1 mrs)) as Hk.
    { rewrite IH. apply Z.div_pos; lia. }
    destruct (shr_1_m _ Hk) as [-> _]. rewrite IH.
    rewrite Nat2Z.inj_succ, Z.pow_succ_r by lia.
    rewrite Z.div_div by lia. f_equal. lia.
Qed.

Lemma iter_shr_1_r (k : nat) mrs :
  0 ≤ shr_m mrs →
  shr_r (Nat.iter (S k) shr_1 mrs) = Z.odd (shr_m mrs / 2 ^ Z.of_nat k).
Proof.
  intros Hm.
  change (Nat.iter (S k) shr_1 mrs) with (shr_1 (Nat.iter k shr_1 mrs)).
  assert (0 ≤ shr_m (Nat.iter k shr_1 mrs)) as Hk.
  { rewrite iter_shr_1_m by done. apply Z.div_pos; lia. }
  destruct (shr_1_m _ Hk) as [_ ->]. by rewrite iter_shr_1_m.
Qed.

(** A shift by [n > 0] divides the mantissa by [2^n]; the round bit is
    the last bit shifted out. *)
Lemma shr_pos mrs e (n : Z) :
  0 < n → 0 ≤ shr_m mrs →
  ∃ mrs', shr mrs e n = (mrs', e + n) ∧
    shr_m mrs' = shr_m mrs / 2 ^ n ∧
    shr_r mrs' = Z.odd (shr_m mrs / 2 ^ (n - 1)).
Proof.
  intros Hn Hm. destruct n as [|p|p]; try lia.
  cbn [shr]. eexists. split; [reflexivity|].
  rewrite iter_pos_nat.
  destruct (Pos2Nat.is_succ p) as [k Hk]. rewrite Hk.
  assert (Z.pos p = Z.of_nat (S k)) as -> by lia.
  split.
  - by apply iter_shr_1_m.
  - rewrite iter_shr_1_r by done.
    by replace (Z.of_nat (S k) - 1) with (Z.of_nat k) by lia.
Qed.

Lemma odd_div_pow2_rem (m n : Z) :
  0 ≤ m → 0 ≤ n → Z.odd (m / 2 ^ n) = true → 2 ^ n ≤ m mod 2 ^ (n + 1).
Proof.
  intros Hm Hn Hodd.
  rewrite Z.pow_add_r, Z.pow_1_r by lia.
  assert (0 < 2 ^ n) as Hp by lia.
  rewrite Z.rem_mul_r by lia.
  pose proof (Zmod_odd (m / 2 ^ n)) as Hmod. rewrite Hodd in Hmod.
  rewrite Hmod. pose proof (Z.mod_pos_bound m (2 ^ n) Hp). lia.
Qed.

(** Rounding to nearest goes up by at most one, and only when the round
    bit is set. *)
Lemma round_nearest_even_cases mrs :
  let m2 := round_nearest_even (shr_m mrs) (loc_of_shr_record mrs) in
  m2 = shr_m mrs ∨ (m2 = shr_m mrs + 1 ∧ shr_r mrs = true).
Proof.
  destruct mrs as [m [] []]; cbn;
    try (left; reflexivity); try (right; split; reflexivity).
  destruct (Z.even m); [left|right]; done.
Qed.

Lemma Pos_iter_xO (p k : positive) :
  Z.pos (Pos.iter xO p k) = Z.pos p * 2 ^ Z.pos k.
Proof.
  rewrite (Pos.iter_swap_gen _ _ Z.pos xO (Z.mul 2)) by reflexivity.
  change (Pos.iter (Z.mul 2) (Z.pos p) k) with (Z.shiftl (Z.pos p) (Z.pos k)).
  apply Z.shiftl_mul_pow2. lia.
Qed.

(** A 53-bit mantissa in the exponent range is left as it is. *)
Lemma binary_round_aux_exact (mz : positive) (ez : Z) :
  Zdigits2 (Z.pos mz) = 53 → -1074 ≤ ez ≤ 971 →
  binary_round_aux Py.prec Py.emax false (Z.pos mz) ez loc_Exact
  = S754_finite false mz ez.
Proof.
  intros Hd He.
  unfold binary_round_aux, shr_fexp, fexp, emin, Py.prec, Py.emax.
  rewrite Hd.
  replace (Z.max (53 + ez - 53) (3 - 1024 - 53) - ez) with 0 by lia.
  cbn [shr shr_record_of_loc shr_m loc_of_shr_record round_nearest_even].
  rewrite Hd.
  replace (Z.max (53 + ez - 53) (3 - 1024 - 53) - ez) with 0 by lia.
  cbn [shr shr_record_of_loc shr_m].
  destruct (Z.leb_spec ez (1024 - 53)); [done|lia].
Qed.

(** A longer positive mantissa [mx] is shifted right by
    [s = Zdigits2 mx - 53] and rounded: the result is [m2 / 2^k * 2^(ex+s+k)]
    where [m2] is [mx / 2^s] or, when at least half a unit was shifted
    out, its successor. *)
Lemma binary_round_aux_pos (mx ex : Z) :
  0 < mx → 53 < Zdigits2 mx →
  -1074 ≤ ex + (Zdigits2 mx - 53) → ex + (Zdigits2 mx - 53) + 1 ≤ 971 →
  ∃ m2 k,
    (m2 = mx / 2 ^ (Zdigits2 mx - 53) ∨
     (m2 = mx / 2 ^ (Zdigits2 mx - 53) + 1 ∧
      2 ^ (Zdigits2 mx - 53 - 1) ≤ mx mod 2 ^ (Zdigits2 mx - 53))) ∧
    0 ≤ k ≤ 1 ∧ 0 < m2 / 2 ^ k ∧
    binary_round_aux Py.prec Py.emax false mx ex loc_Exact =
      S754_finite false (Z.to_pos (m2 / 2 ^ k))
                  (ex + (Zdigits2 mx - 53) + k).
Proof.
  intros Hmx HD Hlo Hhi.
  pose proof (Zdigits2_bounds mx Hmx) as [HDlo HDhi].
  set (s := Zdigits2 mx - 53) in *.
  assert (0 < s) as Hs by lia.
  assert (0 < 2 ^ s) as Hps by lia.
  assert (2 ^ (Zdigits2 mx - 1) = 2 ^ 52 * 2 ^ s) as E1.
  { rewrite <- Z.pow_add_r by lia. f_equal. lia. }
  assert (2 ^ Zdigits2 mx = 2 ^ 53 * 2 ^ s) as E2.
  { rewrite <- Z.pow_add_r by lia. f_equal. lia. }
  assert (2 ^ 52 ≤ mx / 2 ^ s < 2 ^ 53) as [Hm1lo Hm1hi].
  { split; [apply Z.div_le_lower_bound|apply Z.div_lt_upper_bound]; lia. }
  unfold binary_round_aux, shr_fexp, fexp, emin, Py.prec, Py.emax.
  replace (Z.max (Zdigits2 mx + ex - 53) (3 - 1024 - 53) - ex) with s by lia.
  cbn [shr_record_of_loc].
  destruct (shr_pos {| shr_m := mx; shr_r := false; shr_s := false |} ex s Hs)
    as (mrs' & Heq & Hm & Hr); [cbn; lia|].
  cbn [shr_m] in Hm, Hr. rewrite Heq.
  pose proof (round_nearest_even_cases mrs') as Hrne. cbv zeta in Hrne.
  set (m2 := round_nearest_even (shr_m mrs') (loc_of_shr_record mrs')) in *.
  rewrite Hm in Hrne.
  assert (2 ^ 52 ≤ m2 ≤ 2 ^ 53) as [Hm2lo Hm2hi] by lia.
  assert (m2 = mx / 2 ^ s ∨
          m2 = mx / 2 ^ s + 1 ∧ 2 ^ (s - 1) ≤ mx mod 2 ^ s) as Hm2.
  { destruct Hrne as [?|[? Hr']]; [by left|right]. split; [done|].
    rewrite Hr in Hr'. apply odd_div_pow2_rem in Hr'; [|lia..].
    by replace (s - 1 + 1) with s in Hr' by lia. }
  destruct (Z.eq_dec m2 (2 ^ 53)) as [E53|N53].
  - exists m2, 1. rewrite E53.
    replace (Z.max (Zdigits2 (2 ^ 53) + (ex + s) - 53) (3 - 1024 - 53)
             - (ex + s)) with 1
      by (change (Zdigits2 (2 ^ 53)) with 54; lia).
    cbn [shr SpecFloat.iter_pos shr_1 shr_m].
    split; [by rewrite <- E53|]. split; [lia|]. split; [done|].
    change (2 ^ 53 / 2 ^ 1) with 4503599627370496.
    cbn [Z.to_pos].
    destruct (Z.leb_spec (ex + s + 1) (1024 - 53)); [done|lia].
  - exists m2, 0.
    assert (Zdigits2 m2 = 53) as ->.
    { apply Zdigits2_unique; [lia|]. change (53 - 1) with 52. lia. }
    replace (Z.max (53 + (ex + s) - 53) (3 - 1024 - 53) - (ex + s))
      with 0 by lia.
    cbn [shr shr_record_of_loc shr_m].
    rewrite Z.pow_0_r, Z.div_1_r, Z.add_0_r.
    split; [done|]. split; [lia|]. split; [lia|].
    destruct m2 as [|p|p]; try lia. cbn [Z.to_pos].
    destruct (Z.leb_spec (ex + s) (1024 - 53)); [done|lia].
Qed.

(** An int below [2^53] converts exactly: [float(a) = a * 2^u * 2^-u]. *)
Lemma float_of_int_small (a : Z) :
  0 < a < 2 ^ 53 →
  ∃ mz u, Py.float_of_int a = Some (S754_finite false mz (- u)) ∧
    Z.pos mz = a * 2 ^ u ∧ 0 ≤ u ≤ 52 ∧ Zdigits2 (Z.pos mz) = 53.
Proof.
  intros [Ha0 Ha]. destruct a as [|p|p]; try lia.
  pose proof (digits2_pos_bounds p) as [Hlo Hhi].
  assert (Z.pos (digits2_pos p) ≤ 53) as Hd.
  { assert (Z.pos (digits2_pos p) - 1 < 53); [|lia].
    apply (Z.pow_lt_mono_r_iff 2); lia. }
  unfold Py.float_of_int, binary_normalize, binary_round, shl_align, fexp,
    emin, Py.prec, Py.emax.
  replace (Z.max (Z.pos (digits2_pos p) + 0 - 53) (3 - 1024 - 53) - 0)
    with (Z.pos (digits2_pos p) - 53) by lia.
  destruct (Z.pos (digits2_pos p) - 53) as [|q|q] eqn:E; try lia.
  - exists p, 0.
    change (binary_round_aux 53 1024)
      with (binary_round_aux Py.prec Py.emax).
    rewrite binary_round_aux_exact; [|cbn [Zdigits2]; lia|lia].
    split; [done|]. split; [lia|]. split; [lia|]. cbn [Zdigits2]; lia.
  - assert (Zdigits2 (Z.pos (Pos.iter xO p q)) = 53) as Hd'.
    { apply Zdigits2_unique; [lia|]. rewrite Pos_iter_xO.
      assert (Z.pos q = 53 - Z.pos (digits2_pos p)) as Hq by lia.
      assert (2 ^ (53 - 1) = 2 ^ (Z.pos (digits2_pos p) - 1) * 2 ^ Z.pos q)
        as ->.
      { rewrite <- Z.pow_add_r by lia. f_equal. lia. }
      assert (2 ^ 53 = 2 ^ Z.pos (digits2_pos p) * 2 ^ Z.pos q) as ->.
      { rewrite <- Z.pow_add_r by lia. f_equal. lia. }
      assert (0 < 2 ^ Z.pos q) by lia. nia. }
    exists (Pos.iter xO p q), (Z.pos q).
    replace (Z.max (Z.pos (digits2_pos p) + 0 - 53) (3 - 1024 - 53))
      with (- Z.pos q) by lia.
    change (binary_round_aux 53 1024)
      with (binary_round_aux Py.prec Py.emax).
    rewrite binary_round_aux_exact; [|done|lia].
    split; [done|]. split; [apply Pos_iter_xO|]. split; [lia|done].
Qed.

End Binary64.

(** ** [int(a * c)] for a positive constant [c = M * 2^-K] *)

(** The product of a small int and a normal positive double is finite, and
    so is its integer part. *)
Lemma int_mul_float_defined (a : Z) (M : positive) (K : Z) :
  0 < a < 2 ^ 53 → Zdigits2 (Z.pos M) = 53 → 0 ≤ K ≤ 1000 →
  ∃ z, Py.int_mul_float a (S754_finite false M (- K)) = Some z.
Proof.
  intros Ha HM HK.
  destruct (float_of_int_small a Ha) as (mz & u & Hf & Hmz & Hu & Hdz).
  unfold Py.int_mul_float, Py.float_mul. rewrite Hf. cbn [SFmul xorb].
  rewrite Pos2Z.inj_mul.
  pose proof (Zdigits2_bounds (Z.pos mz) ltac:(lia)) as [Hzlo Hzhi].
  pose proof (Zdigits2_bounds (Z.pos M) ltac:(lia)) as [HMlo HMhi].
  rewrite Hdz in Hzlo, Hzhi. rewrite HM in HMlo, HMhi.
  change (53 - 1) with 52 in *.
  set (P := Z.pos mz * Z.pos M).
  assert (2 ^ 104 ≤ P < 2 ^ 106) as [HPlo HPhi].
  { change (2 ^ 104) with (2 ^ 52 * 2 ^ 52).
    change (2 ^ 106) with (2 ^ 53 * 2 ^ 53). nia. }
  pose proof (Zdigits2_bounds P ltac:(lia)) as [HDlo HDhi].
  assert (104 < Zdigits2 P).
  { apply (Z.pow_lt_mono_r_iff 2); [lia| |lia]. destruct P; try lia; done. }
  assert (Zdigits2 P - 1 < 106) by (apply (Z.pow_lt_mono_r_iff 2); lia).
  destruct (binary_round_aux_pos P (- u + - K)) as (m2 & k & _ & _ & _ & ->);
    [lia..|].
  cbn [Py.int_of_float]. eauto.
Qed.

(** The arithmetic core: [P = X * U] is divided by [D = 2 * R] and rounded
    to nearest into [m2]; the integer part of [m2 / T] is [q] when the
    exact value [X / C] is in [[q, q + 1)] with a margin of [H / C]. *)
Lemma div_of_rounded (P D T U C X H R q m2 : Z) :
  0 < D → 0 < T → 0 < U → 0 < R →
  P = X * U → D * T = C * U → D = 2 * R → R ≤ H * U →
  q * C ≤ X → X + H < (q + 1) * C →
  (m2 = P / D ∨ (m2 = P / D + 1 ∧ R ≤ P mod D)) →
  m2 / T = q.
Proof.
  intros HD HT HU HR HP HDT HD2 HRH Hq1 Hq2 Hm2.
  pose proof (Z.div_mod P D ltac:(lia)) as Hdm.
  pose proof (Z.mod_pos_bound P D HD) as Hrem.
  set (m1 := P / D) in *. set (rem := P mod D) in *.
  assert (q * C * U ≤ X * U) as H1 by (apply Z.mul_le_mono_nonneg_r; lia).
  assert ((X + H) * U < (q + 1) * C * U) as H2
    by (apply Z.mul_lt_mono_pos_r; lia).
  assert (D * (q * T) = q * C * U) as E1.
  { replace (D * (q * T)) with (q * (D * T)) by ring. rewrite HDT. ring. }
  assert (D * ((q + 1) * T) = (q + 1) * C * U) as E2.
  { replace (D * ((q + 1) * T)) with ((q + 1) * (D * T)) by ring.
    rewrite HDT. ring. }
  assert (D * (q * T) < D * (m1 + 1)) as L1 by lia.
  apply Z.mul_lt_mono_pos_l in L1; [|done].
  assert (D * m2 < D * ((q + 1) * T)) as L2.
  { rewrite E2. destruct Hm2 as [->|[-> Hh]]; lia. }
  apply Z.mul_lt_mono_pos_l in L2; [|done].
  symmetry. apply Z.div_unique with (r := m2 - q * T); [|ring].
  left. destruct Hm2 as [->|[-> _]]; lia.
Qed.

(** The integer part of the rounded product is [q] as soon as the exact
    product [a * M * 2^-K] lies in [[q, q + 1)] and stays more than half a
    unit in the last place below [q + 1]; [B] bounds the size of [a * M]. *)
Lemma int_mul_float_floor (a : Z) (M : positive) (K B q : Z) :
  0 < a < 2 ^ 53 → Zdigits2 (Z.pos M) = 53 →
  0 ≤ K ≤ 1000 → 54 ≤ B ≤ K + 51 →
  a * Z.pos M < 2 ^ B →
  q * 2 ^ K ≤ a * Z.pos M →
  a * Z.pos M + 2 ^ (B - 54) < (q + 1) * 2 ^ K →
  Py.int_mul_float a (S754_finite false M (- K)) = Some q.
Proof.
  intros Ha HM HK HB HX Hq1 Hq2.
  destruct (float_of_int_small a Ha) as (mz & u & Hf & Hmz & Hu & Hdz).
  unfold Py.int_mul_float, Py.float_mul. rewrite Hf. cbn [SFmul xorb].
  rewrite Pos2Z.inj_mul.
  set (P := Z.pos mz * Z.pos M).
  pose proof (Zdigits2_bounds (Z.pos mz) ltac:(lia)) as [Hzlo Hzhi].
  pose proof (Zdigits2_bounds (Z.pos M) ltac:(lia)) as [HMlo HMhi].
  rewrite Hdz in Hzlo, Hzhi. rewrite HM in HMlo, HMhi.
  change (53 - 1) with 52 in *.
  assert (0 < 2 ^ u) as HU by lia.
  assert (2 ^ 104 ≤ P) as HPlo
    by (change (2 ^ 104) with (2 ^ 52 * 2 ^ 52); nia).
  assert (P = a * Z.pos M * 2 ^ u) as HP by (unfold P; rewrite Hmz; ring).
  assert (P < 2 ^ (B + u)) as HPhi.
  { rewrite Z.pow_add_r by lia. rewrite HP. nia. }
  assert (0 < P) as HP0 by lia.
  pose proof (Zdigits2_bounds P HP0) as [HDlo HDhi].
  assert (104 < Zdigits2 P) as HD1.
  { apply (Z.pow_lt_mono_r_iff 2); [lia| |lia]. destruct P; try lia; done. }
  assert (Zdigits2 P - 1 < B + u) as HD2
    by (apply (Z.pow_lt_mono_r_iff 2); lia).
  destruct (binary_round_aux_pos P (- u + - K))
    as (m2 & k & Hm2 & Hk & Hm3 & ->); [lia..|].
  set (s := Zdigits2 P - 53) in *.
  cbn [Py.int_of_float].
  destruct (Z.leb_spec 0 (- u + - K + s + k)) as [Hge|Hlt]; [lia|].
  rewrite Z.shiftr_div_pow2 by lia. f_equal.
  rewrite Z2Pos.id by lia.
  rewrite Z.div_div by lia. rewrite <- Z.pow_add_r by lia.
  replace (k + - (- u + - K + s + k)) with (u + K - s) by lia.
  set (t := u + K - s).
  assert (0 ≤ t) as Ht by lia.
  assert (2 ^ s * 2 ^ t = 2 ^ K * 2 ^ u) as HST.
  { rewrite <- !Z.pow_add_r by lia. f_equal. lia. }
  assert (2 ^ s = 2 * 2 ^ (s - 1)) as HS2.
  { rewrite <- Z.pow_succ_r by lia. f_equal. lia. }
  assert (2 ^ (s - 1) ≤ 2 ^ (B - 54) * 2 ^ u) as HSB.
  { rewrite <- Z.pow_add_r by lia. apply Z.pow_le_mono_r; lia. }
  apply (div_of_rounded P (2 ^ s) (2 ^ t) (2 ^ u) (2 ^ K) (a * Z.pos M)
           (2 ^ (B - 54)) (2 ^ (s - 1))); try done; lia.
Qed.

(** The literals are the doubles [0x1.999999999999ap-4] and
    [0x1.199999999999ap+0]. *)
Lemma float_0_1_eq :
  Py.float_literal 1 10 = S754_finite false 7205759403792794 (-56).
Proof. reflexivity. Qed.

Lemma float_1_1_eq :
  Py.float_literal 11 10 = S754_finite false 4953959590107546 (-52).
Proof. reflexivity. Qed.

Lemma int_mul_float_0_1 (a : Z) :
  0 < a < 511772684928469 → Py.int_mul_float a Py.float_0_1 = Some (a / 10).
Proof.
  intros Ha.
  apply (int_mul_float_floor a 7205759403792794 56 102);
    try lia; try reflexivity.
  all: change (2 ^ 56) with 72057594037927936;
    change (2 ^ (102 - 54)) with 281474976710656;
    change (2 ^ 102) with 5070602400912917605986812821504;
    Z.div_mod_to_equations; lia.
Qed.

Lemma int_mul_float_1_1_below (a : Z) :
  0 < a ≤ 511772684928465 →
  Py.int_mul_float a Py.float_1_1 = Some (11 * a / 10).
Proof.
  intros Ha.
  apply (int_mul_float_floor a 4953959590107546 52 101);
    try lia; try reflexivity.
  all: change (2 ^ 52) with 4503599627370496;
    change (2 ^ (101 - 54)) with 140737488355328;
    change (2 ^ 101) with 2535301200456458802993406410752;
    Z.div_mod_to_equations; lia.
Qed.

Lemma int_mul_float_1_1 (a : Z) :
  0 < a < 511772684928469 →
  Py.int_mul_float a Py.float_1_1 = Some (11 * a / 10).
Proof.
  intros Ha. destruct (Z_le_gt_dec a 511772684928465) as [Hle|Hgt].
  - apply int_mul_float_1_1_below. lia.
  - assert (a = 511772684928466 ∨ a = 511772684928467 ∨
            a = 511772684928468) as [->|[->| ->]] by lia;
      vm_compute; reflexivity.
Qed.

(** ** The workflow monad *)

Lemma bind_done {A B} (f : A → M B) (t : list event) (a : A) :
  mbind f (t, Done a) = (t ++ (f a).1, (f a).2).
Proof. unfold mbind, M_bind. by destruct (f a). Qed.

Lemma bind_raise {A B} (f : A → M B) (t : list event) (e : exn) :
  mbind f (t, Raise e) = (t, Raise e).
Proof. reflexivity. Qed.

Lemma bind_ret_l {A B} (f : A → M B) (a : A) : mbind f (mret a) = f a.
Proof. unfold mret, M_ret, mbind, M_bind. by destruct (f a). Qed.

Lemma bind_ret_r {A} (m : M A) : mbind mret m = m.
Proof.
  destruct m as [t [a|e]]; [|done].
  rewrite bind_done. cbn. by rewrite app_nil_r.
Qed.

Lemma bind_assoc {A B C} (f : A → M B) (g : B → M C) (m : M A) :
  mbind g (mbind f m) = mbind (λ a, mbind g (f a)) m.
Proof.
  destruct m as [t [a|e]]; [|done].
  unfold mbind, M_bind. destruct (f a) as [t' [b|e]]; [|done].
  destruct (g b) as [t'' r]. by rewrite app_assoc.
Qed.

Lemma bind_ext {A B} (f g : A → M B) (m : M A) :
  (∀ a, f a = g a) → mbind f m = mbind g m.
Proof.
  intros Hfg. destruct m as [t [a|e]]; [|done].
  by rewrite !bind_done, Hfg.
Qed.

(** The outcome of a bind that completes. *)
Lemma bind_done_inv {A B} (f : A → M B) (m : M A) (t : list event) (b : B) :
  mbind f m = (t, Done b) →
  ∃ t1 a t2, m = (t1, Done a) ∧ f a = (t2, Done b) ∧ t = t1 ++ t2.
Proof.
  destruct m as [t1 [a|e]]; [|done].
  rewrite bind_done. destruct (f a) as [t2 r] eqn:E. cbn.
  intros [= <- ->]. by exists t1, a, t2.
Qed.

Lemma mapM_nil {A B} (f : A → M B) : mapM f [] = mret [].
Proof. reflexivity. Qed.

Lemma mapM_cons {A B} (f : A → M B) (x : A) (l : list A) :
  mapM f (x :: l) = y ← f x; k ← mapM f l; mret (y :: k).
Proof. reflexivity. Qed.

Lemma mapM_app {A B} (f : A → M B) (l1 l2 : list A) :
  mapM f (l1 ++ l2) = k1 ← mapM f l1; k2 ← mapM f l2; mret (k1 ++ k2).
Proof.
  induction l1 as [|x l1 IH].
  - rewrite mapM_nil, bind_ret_l. cbn [app]. by rewrite bind_ret_r.
  - cbn [app]. rewrite !mapM_cons, IH, bind_assoc.
    apply bind_ext; intros y. rewrite !bind_assoc.
    apply bind_ext; intros k1. rewrite bind_ret_l, bind_assoc.
    apply bind_ext; intros k2. by rewrite bind_ret_l.
Qed.

(** Mapping over batches and concatenating is mapping over the
    concatenation. *)
Lemma mapM_concat {A B} (f : A → M B) (ls : list (list A)) :
  (k ← mapM (mapM f) ls; mret (concat k)) = mapM f (concat ls).
Proof.
  induction ls as [|l ls IH].
  - by rewrite mapM_nil, bind_ret_l.
  - cbn [concat]. rewrite mapM_cons, mapM_app, <- IH, !bind_assoc.
    apply bind_ext; intros k1. rewrite !bind_assoc.
    apply bind_ext; intros k. by rewrite !bind_ret_l.
Qed.

Lemma mapM_ext_in {A B} (f g : A → M B) (l : list A) :
  (∀ x, x ∈ l → f x = g x) → mapM f l = mapM g l.
Proof.
  induction l as [|x l IH]; intros Hfg; [done|].
  rewrite !mapM_cons, Hfg, IH; [done| |left].
  intros y Hy. apply Hfg. by right.
Qed.

Lemma mapM_fmap {A B C} (f : B → M C) (g : A → B) (l : list A) :
  mapM f (g <$> l) = mapM (f ∘ g) l.
Proof.
  induction l as [|x l IH]; [done|].
  cbn [fmap list_fmap]. by rewrite !mapM_cons, IH.
Qed.

(** ** Ranges, slices and batches *)

Lemma range_nil (n : nat) : (0 < n)%nat → Py.range 0 n = [].
Proof.
  intros Hn. unfold Py.range.
  replace ((0 + n - 1) `div` n)%nat with 0%nat; [done|].
  symmetry. apply Nat.div_small. lia.
Qed.

Lemma range_cons (stop n : nat) :
  (0 < n)%nat → (0 < stop)%nat →
  Py.range stop n = 0%nat :: ((λ i, i + n)%nat <$> Py.range (stop - n) n).
Proof.
  intros Hn Hstop. unfold Py.range.
  assert (((stop + n - 1) `div` n) = S ((stop - n + n - 1) `div` n))%nat as ->.
  { destruct (decide (stop ≤ n)%nat) as [Hle|Hgt].
    - replace (stop - n + n - 1)%nat with (n - 1)%nat by lia.
      rewrite (Nat.div_small (n - 1)) by lia.
      replace (stop + n - 1)%nat with ((stop - 1) + 1 * n)%nat by lia.
      rewrite Nat.div_add by lia. rewrite Nat.div_small by lia. done.
    - replace (stop + n - 1)%nat with ((stop - n + n - 1) + 1 * n)%nat by lia.
      rewrite Nat.div_add by lia. lia. }
  cbn [seq fmap list_fmap]. f_equal.
  rewrite <- seq_shift, <- !list_fmap_compose.
  apply list_fmap_ext. intros _ k _. cbn. lia.
Qed.

Lemma slice_drop {A} (l : list A) (i n : nat) :
  Py.slice l (i + n) (i + n + n) = Py.slice (drop n l) i (i + n).
Proof.
  unfold Py.slice. rewrite drop_drop.
  replace (i + n + n - (i + n))%nat with (i + n - i)%nat by lia.
  by replace (n + i)%nat with (i + n)%nat by lia.
Qed.

Lemma chunks_fuel_enough {A} (fuel fuel' n : nat) (l : list A) :
  (0 < n)%nat → (length l ≤ fuel)%nat → (length l ≤ fuel')%nat →
  chunks_fuel fuel n l = chunks_fuel fuel' n l.
Proof.
  intros Hn. revert fuel' l.
  induction fuel as [|fuel IH]; intros fuel' l Hl Hl'.
  - destruct l; [by destruct fuel'|cbn in Hl; lia].
  - destruct l as [|x l]; [by destruct fuel'|].
    destruct fuel' as [|fuel']; [cbn in Hl'; lia|].
    cbn [chunks_fuel]. f_equal.
    cbn [length] in Hl, Hl'.
    apply IH; rewrite length_drop; cbn [length]; lia.
Qed.

Lemma chunks_nil {A} (n : nat) : chunks n (@nil A) = [].
Proof. reflexivity. Qed.

Lemma chunks_cons {A} (n : nat) (l : list A) :
  (0 < n)%nat → l ≠ [] → chunks n l = take n l :: chunks n (drop n l).
Proof.
  intros Hn Hl. unfold chunks. destruct l as [|x l]; [done|].
  cbn [length chunks_fuel]. f_equal.
  apply chunks_fuel_enough; [done| |done].
  rewrite length_drop. cbn [length]. lia.
Qed.

(** Induction over a list, batch by batch. *)
Lemma chunk_ind {A} (n : nat) (Hn : (0 < n)%nat) (P : list A → Prop) :
  P [] →
  (∀ l, l ≠ [] → P (drop n l) → P l) → ∀ l, P l.
Proof.
  intros Hnil Hstep l.
  remember (length l) as k eqn:Hk. revert l Hk.
  induction k as [k IH] using lt_wf_ind. intros l ->.
  destruct l as [|x l]; [done|].
  apply Hstep; [done|].
  apply (IH (length (drop n (x :: l)))); [|done].
  rewrite length_drop. cbn [length]. lia.
Qed.

(** The batches the workflow cuts with [range] and slices are the
    consecutive chunks. *)
Lemma slices_chunks {A} (n : nat) (l : list A) :
  (0 < n)%nat →
  (λ i, Py.slice l i (i + n)) <$> Py.range (length l) n = chunks n l.
Proof.
  intros Hn. induction l as [|l Hl IH] using (chunk_ind n Hn).
  - cbn [length]. by rewrite range_nil.
  - rewrite chunks_cons, range_cons by (done || destruct l; cbn; done || lia).
    cbn [fmap list_fmap]. f_equal.
    + unfold Py.slice. rewrite drop_0. f_equal. lia.
    + rewrite <- IH, length_drop, <- list_fmap_compose.
      apply list_fmap_ext. intros _ i _. cbn. apply slice_drop.
Qed.

Lemma concat_chunks {A} (n : nat) (l : list A) :
  (0 < n)%nat → concat (chunks n l) = l.
Proof.
  intros Hn. induction l as [|l Hl IH] using (chunk_ind n Hn); [done|].
  rewrite chunks_cons by done. cbn [concat]. rewrite IH. apply take_drop.
Qed.

(** Every batch is non-empty and has at most [n] elements; every batch
    but the last has exactly [n]. *)
Lemma chunks_lengths {A} (n : nat) (l : list A) :
  (0 < n)%nat →
  Forall (λ b, 0 < length b ≤ n)%nat (chunks n l) ∧
  ∀ k b, (S k < length (chunks n l))%nat →
         chunks n l !! k = Some b → length b = n.
Proof.
  intros Hn. induction l as [|l Hl [IH1 IH2]] using (chunk_ind n Hn).
  - split; [constructor|]. cbn. lia.
  - rewrite chunks_cons by done. split.
    + constructor; [|done]. rewrite length_take.
      destruct l; [done|]. cbn [length]. lia.
    + intros [|k] b Hk Hb.
      * cbn in Hb. injection Hb as <-. rewrite length_take.
        cbn [length] in Hk.
        destruct (chunks n (drop n l)) as [|c cs] eqn:E; [cbn in Hk; lia|].
        assert (drop n l ≠ []) as Hd by (intros Hd; by rewrite Hd in E).
        assert (n < length l)%nat; [|lia].
        destruct (decide (n < length l)%nat); [done|].
        destruct Hd. apply drop_ge. lia.
      * cbn in Hb, Hk. apply (IH2 k); [lia|done].
Qed.

(** ** Lists *)

Section Filter.
Context {A : Type} (P Q : A → Prop) `{!∀ x, Decision (P x), !∀ x, Decision (Q x)}.

Lemma filter_ext_in (l : list A) :
  (∀ x, x ∈ l → (P x ↔ Q x)) → filter P l = filter Q l.
Proof.
  induction l as [|x l IH]; intros Hl; [done|].
  rewrite !filter_cons, IH by (intros y Hy; apply Hl; by right).
  destruct (decide (P x)) as [HP|HP], (decide (Q x)) as [HQ|HQ]; try done;
    destruct (Hl x ltac:(left)); tauto.
Qed.

Lemma filter_none (l : list A) :
  (∀ x, x ∈ l → ¬ P x) → filter P l = [].
Proof.
  induction l as [|x l IH]; intros Hl; [done|].
  rewrite filter_cons, IH by (intros y Hy; apply Hl; by right).
  destruct (decide (P x)) as [HP|HP]; [|done].
  by destruct (Hl x ltac:(left)).
Qed.

Lemma filter_all (l : list A) :
  (∀ x, x ∈ l → P x) → filter P l = l.
Proof.
  induction l as [|x l IH]; intros Hl; [done|].
  rewrite filter_cons, IH by (intros y Hy; apply Hl; by right).
  destruct (decide (P x)) as [HP|HP]; [done|].
  destruct HP. apply Hl. by left.
Qed.

End Filter.

(** ** Enrichment *)

Lemma process_record_done (r : record) (tx tl : Z) :
  Py.int_mul_float (amount r) Py.float_0_1 = Some tx →
  Py.int_mul_float (amount r) Py.float_1_1 = Some tl →
  process_record r = ([], Done (with_enrichment r tx tl)).
Proof. intros Htx Htl. unfold process_record. by rewrite Htx, Htl. Qed.

Lemma process_record_inv (r r' : record) (t : list event) :
  process_record r = (t, Done r') →
  t = [] ∧ ∃ tx tl,
    Py.int_mul_float (amount r) Py.float_0_1 = Some tx ∧
    Py.int_mul_float (amount r) Py.float_1_1 = Some tl ∧
    r' = with_enrichment r tx tl.
Proof.
  unfold process_record.
  destruct (Py.int_mul_float (amount r) Py.float_0_1) as [tx|]; [|done].
  destruct (Py.int_mul_float (amount r) Py.float_1_1) as [tl|]; [|done].
  intros [= <- <-]. split; [done|]. by exists tx, tl.
Qed.

Lemma mapM_process_record_inv (l out : list record) (t : list event) :
  mapM process_record l = (t, Done out) →
  t = [] ∧ Forall2 (λ r r', ∃ tx tl, r' = with_enrichment r tx tl) l out.
Proof.
  revert t out. induction l as [|r l IH]; intros t out.
  - intros [= <- <-]. split; [done|constructor].
  - rewrite mapM_cons. intros H.
    apply bind_done_inv in H as (t1 & r' & t2 & Hr & H & ->).
    apply bind_done_inv in H as (t3 & k & t4 & Hl & H & ->).
    injection H as <- <-.
    apply process_record_inv in Hr as (-> & tx & tl & _ & _ & ->).
    apply IH in Hl as [-> Hl]. split; [done|].
    constructor; [by exists tx, tl|done].
Qed.

Lemma mapM_process_record_total (l : list record) :
  Forall (λ r, ∃ r', process_record r = ([], Done r')) l →
  ∃ out, mapM process_record l = ([], Done out).
Proof.
  induction 1 as [|r l [r' Hr] _ [out IH]].
  - by exists [].
  - exists (r' :: out). by rewrite mapM_cons, Hr, bind_done, IH.
Qed.

Lemma process_record_cases (r : record) :
  (∃ r', process_record r = ([], Done r')) ∨
  process_record r = ([], Raise OverflowError).
Proof.
  unfold process_record.
  destruct (Py.int_mul_float (amount r) Py.float_0_1) as [tx|]; [|by right].
  destruct (Py.int_mul_float (amount r) Py.float_1_1) as [tl|]; [|by right].
  left. by eexists.
Qed.

Lemma mapM_process_record_cases (l : list record) :
  (∃ out, mapM process_record l = ([], Done out)) ∨
  mapM process_record l = ([], Raise OverflowError).
Proof.
  induction l as [|r l IH]; [left; by exists []|].
  rewrite mapM_cons.
  destruct (process_record_cases r) as [[r' ->]| ->]; [|by right].
  rewrite bind_done. destruct IH as [[out ->]| ->]; [left|by right].
  by exists (r' :: out).
Qed.

(** A batch leaves no event, whether it succeeds or fails. *)
Lemma mapM_process_record_trace (l : list record) :
  trace (mapM process_record l) = [].
Proof. by destruct (mapM_process_record_cases l) as [[out ->]| ->]. Qed.

(** A selection of batches, each enriched: the records enriched are a
    sublist of the records, enriched one by one. *)
Lemma kept_batches_sublist (sel : nat → list record → option (list record))
    (batches : list (list record)) :
  (∀ i b out, sel i b = Some out → mapM process_record b = ([], Done out)) →
  ∃ kept, kept `sublist_of` concat batches ∧
    mapM process_record kept
      = ([], Done (concat (omap (λ r, r) (imap sel batches)))).
Proof.
  revert sel. induction batches as [|b batches IH]; intros sel Hsel.
  - by exists [].
  - rewrite imap_cons. cbn [omap list_omap concat].
    destruct (IH (sel ∘ S)) as (kept & Hsub & Hkept).
    { intros i b' out. apply Hsel. }
    destruct (sel 0%nat b) as [out|] eqn:E.
    + exists (b ++ kept). split; [by apply sublist_app|].
      cbn [concat]. rewrite mapM_app, (Hsel _ _ _ E), bind_done, Hkept.
      by rewrite bind_done.
    + exists kept. split; [by apply sublist_inserts_l|done].
Qed.

Lemma kept_result_done (w : world) (all_successful : bool) (i : nat)
    (b out : list record) :
  kept_result w all_successful i b = Some out →
  mapM process_record b = ([], Done out).
Proof.
  unfold kept_result. pose proof (mapM_process_record_trace b) as Ht.
  destruct (mapM process_record b) as [t [o|e]]; [|done].
  cbn in Ht. subst t. cbn [result snd].
  destruct (all_successful || map_completed w i); [|done]. by intros [= ->].
Qed.

(** What the Enricher returns: it never raises, it leaves no event, and its
    output is made of the batches it keeps. *)
Lemma enricher_run (w : world) (records : list record) :
  enricher w records =
    ([], Done (concat (omap (λ r, r)
       (imap (kept_result w
                (forallb (λ b, is_done (result (mapM process_record b)))
                         (chunks BATCH_SIZE records)))
             (chunks BATCH_SIZE records))))).
Proof.
  assert (0 < BATCH_SIZE)%nat as Hn by (unfold BATCH_SIZE; lia).
  unfold enricher, context_map. rewrite slices_chunks by done.
  set (batches := chunks BATCH_SIZE records).
  assert (imap (λ index item, process_batch item index batches) batches
          = mapM process_record <$> batches) as ->.
  { unfold process_batch. apply (imap_const (mapM process_record)). }
  assert (concat (trace <$> (mapM process_record <$> batches)) = []) as ->.
  { induction batches as [|b l IH]; [done|].
    cbn [fmap list_fmap concat].
    by rewrite mapM_process_record_trace, IH. }
  assert (forallb (λ run : M (list record), is_done (result run))
            (mapM process_record <$> batches)
          = forallb (λ b, is_done (result (mapM process_record b))) batches)
    as ->.
  { induction batches as [|b l IH]; [done|].
    cbn [fmap list_fmap forallb]. by rewrite IH. }
  rewrite bind_done. cbn [fst snd mret M_ret app]. do 2 f_equal.
  by rewrite imap_fmap.
Qed.

(** The output of the Enricher is always the enrichment, record by record,
    of a sublist of the input. *)
Lemma enricher_sublist (w : world) (records : list record) :
  ∃ kept processed,
    enricher w records = ([], Done processed) ∧
    kept `sublist_of` records ∧
    mapM process_record kept = ([], Done processed).
Proof.
  assert (0 < BATCH_SIZE)%nat as Hn by (unfold BATCH_SIZE; lia).
  rewrite enricher_run.
  destruct (kept_batches_sublist
    (kept_result w
       (forallb (λ b, is_done (result (mapM process_record b)))
                (chunks BATCH_SIZE records)))
    (chunks BATCH_SIZE records)) as (kept & Hsub & Hkept).
  { intros i b out. apply kept_result_done. }
  rewrite concat_chunks in Hsub by done.
  by eexists kept, _.
Qed.

Lemma mapM_Forall2 {A B} (h : A → M B) (l : list A) (t : list event)
    (k : list B) :
  mapM h l = (t, Done k) →
  Forall2 (λ x y, ∃ t', h x = (t', Done y)) l k.
Proof.
  revert t k. induction l as [|x l IH]; intros t k.
  - intros [= <- <-]. constructor.
  - rewrite mapM_cons. intros H.
    apply bind_done_inv in H as (t1 & y & t2 & Hx & H & ->).
    apply bind_done_inv in H as (t3 & k' & t4 & Hl & H & ->).
    injection H as <- <-. constructor; [by exists t1|by eapply IH].
Qed.

(** When every record enriches, the batches do not show in the result of
    the Enricher, nor does the scheduling: it is the records enriched one
    by one, in order. *)
Lemma enricher_all_done (w : world) (records out : list record) :
  mapM process_record records = ([], Done out) →
  enricher w records = ([], Done out).
Proof.
  assert (0 < BATCH_SIZE)%nat as Hn by (unfold BATCH_SIZE; lia).
  intros Hall. rewrite enricher_run.
  rewrite <- (concat_chunks BATCH_SIZE records Hn), <- mapM_concat in Hall.
  apply bind_done_inv in Hall as (t1 & k & t2 & Hk & Hc & _).
  injection Hc as _ <-.
  apply mapM_Forall2 in Hk.
  set (batches := chunks BATCH_SIZE records) in *.
  assert (forallb (λ b, is_done (result (mapM process_record b))) batches
          = true) as ->.
  { induction Hk as [|b o l k' [t' Hb] _ IH]; [done|].
    cbn [forallb]. by rewrite Hb, IH. }
  do 3 f_equal. clear Hn.
  assert (∀ f : nat → list record → option (list record),
            (∀ i b t out, mapM process_record b = (t, Done out) →
                          f i b = Some out) →
            omap (λ r, r) (imap f batches) = k) as Hgen.
  { induction Hk as [|b o l k' [t' Hb] _ IH]; intros f Hf; [done|].
    rewrite imap_cons. cbn [omap list_omap]. rewrite (Hf _ _ _ _ Hb).
    f_equal. apply IH. intros i b'. apply Hf. }
  apply Hgen. intros i b t out Hb. unfold kept_result. by rewrite Hb.
Qed.

Lemma count_id_NoDup (l : list record) (i : string) :
  NoDup (id <$> l) → i ∈ id <$> l →
  length (filter (λ r, id r = i) l) = 1%nat.
Proof.
  induction l as [|r l IH]; cbn [fmap list_fmap].
  - intros _ Hi. by apply elem_of_nil in Hi.
  - intros [Hr Hl]%NoDup_cons Hi. rewrite filter_cons.
    destruct (decide (id r = i)) as [<-|Hne].
    + cbn [length]. f_equal.
      rewrite filter_none; [done|].
      intros r' Hr' Heq. apply Hr. rewrite <- Heq.
      by apply list_elem_of_fmap_2.
    + apply elem_of_cons in Hi as [Hi|Hi]; [by destruct Hne|]. by apply IH.
Qed.

Lemma process_record_total (r : record) :
  0 < amount r < 2 ^ 53 → ∃ r', process_record r = ([], Done r').
Proof.
  intros Ha.
  destruct (int_mul_float_defined (amount r) 7205759403792794 56 Ha)
    as [tx Htx]; [done|lia|].
  destruct (int_mul_float_defined (amount r) 4953959590107546 52 Ha)
    as [tl Htl]; [done|lia|].
  exists (with_enrichment r tx tl). by apply process_record_done.
Qed.

(** C3 (amended): for every record whose amount [a] is positive and below
    511,772,684,928,469, enrichment yields [tax = floor(a / 10)] and
    [total = floor(11 * a / 10)], the other keys unchanged and [processed]
    set. *)
Theorem process_record_tax_total (r : record) :
  0 < amount r < 511772684928469 →
  process_record r =
    ([], Done (with_enrichment r (amount r / 10) (11 * amount r / 10))).
Proof.
  intros Ha. apply process_record_done.
  - by apply int_mul_float_0_1.
  - by apply int_mul_float_1_1.
Qed.

Lemma process_record_tax_total_witness :
  0 < amount (sale "S-0001" 1234567) < 511772684928469 ∧
  process_record (sale "S-0001" 1234567) =
    ([], Done (with_enrichment (sale "S-0001" 1234567) 123456 1358023)).
Proof.
  split; [split; reflexivity|].
  apply (process_record_tax_total (sale "S-0001" 1234567)).
  split; reflexivity.
Defined.

(** C3 (counterexample): for the amount 511,772,684,928,469 the double
    product [a * 1.1] rounds up to 562,949,953,421,316.0, and the total is
    one more than [floor(11 * a / 10) = 562,949,953,421,315]. *)
Lemma process_record_total_inexact :
  0 < amount (sale "S-0001" 511772684928469) ∧
  process_record (sale "S-0001" 511772684928469) =
    ([], Done (with_enrichment (sale "S-0001" 511772684928469)
                 51177268492846 562949953421316)) ∧
  11 * amount (sale "S-0001" 511772684928469) / 10 = 562949953421315.
Proof. split; [reflexivity|]. split; vm_compute; reflexivity. Qed.

(** C9: enrichment is a function of the record alone: it has no other
    argument and leaves no trace.  Its tax and total depend on the amount
    only; enriching an enriched record again gives the same record;
    enriching the base fields of an enriched record gives the same tax and
    total; a batch is processed the same way whatever its index and the
    list of all batches; and when every record enriches, the Enricher
    gives the records enriched one by one, however they were cut into
    batches and in whatever order the batches ran. *)
Theorem process_record_deterministic :
  (∀ r t r', process_record r = (t, Done r') →
     t = [] ∧ process_record r' = ([], Done r') ∧
     (∃ r'', process_record (base_fields r') = ([], Done r'') ∧
             tax r'' = tax r' ∧ total r'' = total r') ∧
     (∀ r2, amount r2 = amount r →
        ∃ r2', process_record r2 = ([], Done r2') ∧
               tax r2' = tax r' ∧ total r2' = total r')) ∧
  (∀ batch i j all all',
     process_batch batch i all = process_batch batch j all') ∧
  (∀ w records out, mapM process_record records = ([], Done out) →
     enricher w records = ([], Done out)).
Proof.
  split; [|split; [done|apply enricher_all_done]].
  intros r t r' H.
  apply process_record_inv in H as (-> & tx & tl & Htx & Htl & ->).
  split; [done|]. split; [|split].
  - by apply (process_record_done (with_enrichment r tx tl)).
  - exists (with_enrichment (base_fields (with_enrichment r tx tl)) tx tl).
    split; [|done].
    by apply (process_record_done (base_fields (with_enrichment r tx tl))).
  - intros r2 Ha. exists (with_enrichment r2 tx tl). split; [|done].
    apply process_record_done; by rewrite Ha.
Qed.

Lemma process_record_deterministic_witness :
  process_record (with_enrichment (sale "S-0001" 1234567) 123456 1358023) =
    ([], Done (with_enrichment (sale "S-0001" 1234567) 123456 1358023)).
Proof.
  apply (proj1 process_record_deterministic (sale "S-0001" 1234567) []).
  vm_compute. reflexivity.
Defined.

(** C8: when every record enriches, the merged output of the Enricher has
    as many records as the input, each output record is the input record at
    the same place with the enrichment keys set, and the ids are the same
    in the same order, so that with unique input ids every input id occurs
    in the output exactly once; every record enriches when every amount is
    positive and below 2^53.  But the Enricher never fails: when a record
    does not enrich, the batch that holds it is left out and the output is
    shorter than the input.  For the two rows of [overflow_sales], one
    batch, the output is empty. *)
Theorem enricher_preserves_records :
  (∀ w records out, mapM process_record records = ([], Done out) →
     enricher w records = ([], Done out) ∧
     length out = length records ∧
     Forall2 (λ r r', ∃ tx tl, r' = with_enrichment r tx tl) records out ∧
     id <$> out = id <$> records ∧
     (NoDup (id <$> records) → ∀ i, i ∈ id <$> records →
        length (filter (λ r, id r = i) out) = 1%nat)) ∧
  (∀ records, Forall (λ r, 0 < amount r < 2 ^ 53) records →
     ∃ out, mapM process_record records = ([], Done out)) ∧
  (∀ w records, ∃ out,
     enricher w records = ([], Done out) ∧
     (length out ≤ length records)%nat) ∧
  (∀ w, process_record (sale "S-0002" (2 ^ 1024))
          = ([], Raise OverflowError) ∧
        enricher w overflow_sales = ([], Done []) ∧
        length overflow_sales = 2%nat).
Proof.
  split; [|split; [|split]].
  - intros w records out H. split; [by apply enricher_all_done|].
    apply mapM_process_record_inv in H as [_ H].
    assert (id <$> out = id <$> records) as Hids.
    { induction H as [|r r' l l' (tx & tl & ->) _ IH]; [done|].
      cbn [fmap list_fmap]. by rewrite IH. }
    split; [symmetry; by eapply Forall2_length|]. split; [done|].
    split; [done|].
    intros Hnd i Hi. apply count_id_NoDup; by rewrite Hids.
  - intros records H. apply mapM_process_record_total.
    eapply Forall_impl; [done|]. apply process_record_total.
  - intros w records.
    destruct (enricher_sublist w records) as (kept & out & Hrun & Hsub & Hk).
    exists out. split; [done|].
    apply mapM_process_record_inv in Hk as [_ Hk].
    rewrite <- (Forall2_length _ _ _ Hk). by apply sublist_length.
  - intros w. split; [|split; [|done]].
    + vm_compute. reflexivity.
    + rewrite enricher_run. vm_compute. reflexivity.
Qed.

Lemma enricher_preserves_records_witness :
  enricher sample_world sample_sales = ([], Done sample_processed) ∧
  length sample_processed = length sample_sales ∧
  id <$> sample_processed = id <$> sample_sales.
Proof.
  assert (mapM process_record sample_sales = ([], Done sample_processed))
    as H by (vm_compute; reflexivity).
  destruct (proj1 enricher_preserves_records sample_world sample_sales
              sample_processed H) as (Hr & Hl & _ & Hi & _).
  by split.
Defined.

(** ** The approval gate *)

Lemma list_difference_filter {A} `{EqDecision A} (l k : list A) :
  list_difference l k = filter (λ x, x ∉ k) l.
Proof.
  induction l as [|x l IH]; [done|].
  cbn [list_difference]. rewrite filter_cons, IH.
  by destruct (decide_rel elem_of x k), (decide (x ∉ k)).
Qed.

Lemma list_intersection_nil_r {A} `{EqDecision A} (l : list A) :
  list_intersection l [] = [].
Proof.
  apply elem_of_nil_inv. intros x [_ Hx]%list_elem_of_intersection.
  by apply elem_of_nil in Hx.
Qed.

Lemma elem_of_high_value_ids (processed : list record) (i : string) :
  i ∈ high_value_ids_of processed ↔
  ∃ r, r ∈ processed ∧ id r = i ∧ HIGH_VALUE_THRESHOLD ≤ amount r.
Proof.
  unfold high_value_ids_of. rewrite list_elem_of_fmap. split.
  - intros (r & -> & [Hr Hin]%list_elem_of_filter). by exists r.
  - intros (r & Hin & <- & Hr). exists r. split; [done|].
    by apply list_elem_of_filter.
Qed.

Lemma approval_gate_run (w : world) (date : string) (processed : list record) :
  approval_gate w date processed =
    match high_value_ids_of processed with
    | [] => ([], Done ([], []))
    | _ :: _ =>
        ([EvCreateCallback "high-value-transaction-approval" 3;
          EvApprovalRequest (callback_id w)
            (length (high_value_ids_of processed)) date;
          EvAwaitCallback (callback_id w)],
         Done (approved_ids_of (callback_payload w),
               filter (λ i, i ∉ approved_ids_of (callback_payload w))
                      (high_value_ids_of processed)))
    end.
Proof.
  unfold approval_gate, context_step, extract_high_value_ids.
  rewrite bind_ret_l. fold (high_value_ids_of processed).
  by destruct (high_value_ids_of processed).
Qed.

(** Approving an id that is not flagged approves no further record. *)
Lemma select_approved_intersection (processed : list record)
    (approved_ids : list string) :
  select_approved processed approved_ids =
  select_approved processed
    (list_intersection approved_ids (high_value_ids_of processed)).
Proof.
  unfold select_approved. apply filter_ext_in. intros r Hr.
  rewrite list_elem_of_intersection, elem_of_high_value_ids.
  split; (intros [Hlt|Hin]; [by left|]).
  - destruct (decide (amount r < HIGH_VALUE_THRESHOLD)); [by left|].
    right. split; [done|]. exists r. split; [done|]. split; [done|lia].
  - right. by destruct Hin.
Qed.

Lemma rejected_ids_difference (H A : list string) :
  filter (λ i, i ∉ A) H = list_difference H (list_intersection A H).
Proof.
  rewrite list_difference_filter. apply filter_ext_in. intros i Hi.
  rewrite list_elem_of_intersection. tauto.
Qed.

(** The outcome of the gate and of the reconciliation in terms of the
    high-value ids [H] and the payload ids [A]: only [A ∩ H] matters. *)
Lemma reconcile_canonical (w : world) (date : string)
    (processed : list record) :
  result (reconcile w date processed) =
    Done (select_approved processed
            (list_intersection (approved_ids_of (callback_payload w))
                               (high_value_ids_of processed)),
          select_rejected processed
            (list_difference (high_value_ids_of processed)
               (list_intersection (approved_ids_of (callback_payload w))
                                  (high_value_ids_of processed)))).
Proof.
  unfold reconcile. rewrite approval_gate_run.
  destruct (high_value_ids_of processed) as [|h H] eqn:EH.
  - rewrite bind_done. cbn. by rewrite list_intersection_nil_r.
  - rewrite bind_done. cbn [result fst snd mret M_ret].
    by rewrite select_approved_intersection, rejected_ids_difference, EH.
Qed.

Lemma approval_gate_result (w : world) (date : string)
    (processed : list record) :
  ∃ approved_ids rejected_ids,
    result (approval_gate w date processed)
      = Done (approved_ids, rejected_ids) ∧
    rejected_ids =
      list_difference (high_value_ids_of processed)
        (list_intersection (approved_ids_of (callback_payload w))
                           (high_value_ids_of processed)) ∧
    result (reconcile w date processed) =
      Done (select_approved processed approved_ids,
            select_rejected processed rejected_ids) ∧
    select_approved processed approved_ids =
      select_approved processed
        (list_intersection (approved_ids_of (callback_payload w))
                           (high_value_ids_of processed)).
Proof.
  unfold reconcile. rewrite approval_gate_run.
  destruct (high_value_ids_of processed) as [|h H] eqn:EH.
  - exists [], []. rewrite bind_done. cbn.
    by rewrite list_intersection_nil_r.
  - eexists _, _. rewrite bind_done. cbn [result fst snd mret M_ret].
    split; [done|]. split; [by rewrite rejected_ids_difference|].
    split; [done|]. by rewrite select_approved_intersection, EH.
Qed.

Lemma list_difference_nil_r {A} `{EqDecision A} (l : list A) :
  list_difference l [] = l.
Proof.
  induction l as [|x l IH]; [done|]. cbn [list_difference].
  destruct (decide_rel elem_of x []) as [Hx|_];
    [by apply elem_of_nil in Hx|by rewrite IH].
Qed.

(** C1: the gate resolves with a pair [(approved_ids, rejected_ids)] where
    [rejected_ids = H − (A ∩ H)] for the high-value ids [H] and the ids [A]
    of the decision payload: for a payload [{approved_ids: A}] and a
    non-empty [H] the gate gives [(A, H − (A ∩ H))], and the records are
    cut by [A ∩ H] and [H − (A ∩ H)]; a payload that is missing, empty or
    without the key counts as [A = []], which rejects all of [H]; and the
    approved and rejected records are those obtained from [A ∩ H] alone, so
    that two decisions which agree on the flagged ids give the same
    partition. *)
Theorem approval_gate_reconcile (w : world) (date : string)
    (processed : list record) :
  (∃ approved_ids rejected_ids,
     result (approval_gate w date processed)
       = Done (approved_ids, rejected_ids) ∧
     rejected_ids =
       list_difference (high_value_ids_of processed)
         (list_intersection (approved_ids_of (callback_payload w))
                            (high_value_ids_of processed)) ∧
     result (reconcile w date processed) =
       Done (select_approved processed
               (list_intersection (approved_ids_of (callback_payload w))
                                  (high_value_ids_of processed)),
             select_rejected processed rejected_ids)) ∧
  (approved_ids_of ResultNone = [] ∧ approved_ids_of ResultEmpty = [] ∧
   approved_ids_of (ResultJson None) = [] ∧
   approved_ids_of (ResultJson (Some [])) = []) ∧
  (∀ w', (∀ i, i ∈ high_value_ids_of processed →
            (i ∈ approved_ids_of (callback_payload w) ↔
             i ∈ approved_ids_of (callback_payload w'))) →
         result (reconcile w' date processed)
         = result (reconcile w date processed)) ∧
  (∀ A, callback_payload w = ResultJson (Some A) →
        (high_value_ids_of processed ≠ [] →
         result (approval_gate w date processed) =
           Done (A, list_difference (high_value_ids_of processed)
                      (list_intersection A (high_value_ids_of processed)))) ∧
        result (reconcile w date processed) =
          Done (select_approved processed
                  (list_intersection A (high_value_ids_of processed)),
                select_rejected processed
                  (list_difference (high_value_ids_of processed)
                     (list_intersection A (high_value_ids_of processed))))) ∧
  (callback_payload w = ResultNone ∨ callback_payload w = ResultEmpty ∨
   callback_payload w = ResultJson None →
   (high_value_ids_of processed ≠ [] →
    result (approval_gate w date processed) =
      Done ([], high_value_ids_of processed)) ∧
   result (reconcile w date processed) =
     Done (select_approved processed [],
           select_rejected processed (high_value_ids_of processed))).
Proof.
  pose proof (reconcile_canonical) as Hrec.
  split; [|split; [done|split; [|split]]].
  - destruct (approval_gate_result w date processed)
      as (approved_ids & rejected_ids & Hgate & Hrej & _ & _).
    exists approved_ids, rejected_ids. split; [done|]. split; [done|].
    by rewrite Hrec, Hrej.
  - intros w' Hagree. rewrite !Hrec.
    assert (∀ i, i ∈ high_value_ids_of processed →
      (i ∈ list_intersection (approved_ids_of (callback_payload w'))
             (high_value_ids_of processed) ↔
       i ∈ list_intersection (approved_ids_of (callback_payload w))
             (high_value_ids_of processed))) as Hint.
    { intros i Hi. rewrite !list_elem_of_intersection.
      specialize (Hagree i Hi). tauto. }
    f_equal. f_equal.
    + unfold select_approved. apply filter_ext_in. intros r Hr.
      split; (intros [?|Hin]; [by left|right]);
        apply Hint; try done;
        apply list_elem_of_intersection in Hin; tauto.
    + f_equal. rewrite !list_difference_filter.
      apply filter_ext_in. intros i Hi. specialize (Hint i Hi). tauto.
  - intros A HA. split.
    + intros HH. rewrite approval_gate_run, HA.
      destruct (high_value_ids_of processed) as [|h H]; [done|].
      cbn [result snd approved_ids_of].
      by rewrite rejected_ids_difference.
    + by rewrite Hrec, HA.
  - intros Hnone.
    assert (approved_ids_of (callback_payload w) = []) as Hids
      by by destruct Hnone as [->|[->| ->]].
    split.
    + intros HH. rewrite approval_gate_run, Hids.
      destruct (high_value_ids_of processed) as [|h H]; [done|].
      cbn [result snd]. rewrite rejected_ids_difference.
      change (list_intersection [] (h :: H)) with (@nil string).
      by rewrite list_difference_nil_r.
    + rewrite Hrec, Hids.
      change (list_intersection [] (high_value_ids_of processed))
        with (@nil string).
      by rewrite list_difference_nil_r.
Qed.

Lemma approval_gate_reconcile_witness :
  result (approval_gate sample_world "2025-01-15" sample_processed)
  = Done (["S-0002"; "S-9999"], ["S-0003"]) ∧
  result (reconcile sample_world "2025-01-15" sample_processed)
  = Done ([with_enrichment (sale "S-0001" 15) 1 16;
           with_enrichment (sale "S-0002" 2000000) 200000 2200000;
           with_enrichment (sale "S-0004" 999999) 99999 1099998],
          [with_enrichment (sale "S-0003" 1000000) 100000 1100000]) ∧
  result (reconcile
            {| s3_objects := s3_objects sample_world;
               callback_id := "cb-2";
               callback_payload := ResultJson (Some ["S-0002"]);
               sync_failures := sync_failures sample_world;
               put_fails := λ _ _, false;
               map_completed := λ _, true |}
            "2025-01-15" sample_processed)
  = result (reconcile sample_world "2025-01-15" sample_processed).
Proof.
  destruct (approval_gate_reconcile sample_world "2025-01-15"
              sample_processed) as (_ & _ & Hagree & Hsome & _).
  destruct (Hsome ["S-0002"; "S-9999"] eq_refl) as [Hgate Hrec].
  split; [|split].
  - apply Hgate. vm_compute. discriminate.
  - exact Hrec.
  - apply Hagree.
    vm_compute. intros i Hi.
    apply elem_of_cons in Hi as [->|Hi].
    + split; intros _; [left|left].
    + apply elem_of_cons in Hi as [->|Hi]; [|by apply elem_of_nil in Hi].
      split; intros Hin.
      * apply elem_of_cons in Hin as [[=]|Hin].
        apply elem_of_cons in Hin as [[=]|Hin]. by apply elem_of_nil in Hin.
      * apply elem_of_cons in Hin as [[=]|Hin]. by apply elem_of_nil in Hin.
Defined.

Lemma id_unique (l : list record) (r r' : record) :
  NoDup (id <$> l) → r ∈ l → r' ∈ l → id r = id r' → r = r'.
Proof.
  induction l as [|x l IH]; cbn [fmap list_fmap].
  - intros _ Hr. by apply elem_of_nil in Hr.
  - intros [Hx Hl]%NoDup_cons [->|Hr]%elem_of_cons [->|Hr']%elem_of_cons Heq.
    + done.
    + destruct Hx. rewrite Heq. by apply list_elem_of_fmap_2.
    + destruct Hx. rewrite <- Heq. by apply list_elem_of_fmap_2.
    + by apply IH.
Qed.

(** With unique ids, a record is rejected exactly when it is not
    approved. *)
Lemma rejected_iff_not_approved (processed : list record)
    (A : list string) (r : record) :
  NoDup (id <$> processed) → r ∈ processed →
  id r ∈ list_difference (high_value_ids_of processed)
           (list_intersection A (high_value_ids_of processed)) ↔
  ¬ (amount r < HIGH_VALUE_THRESHOLD ∨
     id r ∈ list_intersection A (high_value_ids_of processed)).
Proof.
  intros Hnd Hr. rewrite list_elem_of_difference, elem_of_high_value_ids.
  split.
  - intros [(r0 & Hr0 & Hid & Hamt) Hnot] [Hlt|Hin]; [|done].
    assert (r0 = r) as -> by by apply (id_unique processed).
    lia.
  - intros Hnot. split; [|tauto].
    exists r. split; [done|]. split; [done|].
    destruct (decide (HIGH_VALUE_THRESHOLD ≤ amount r)); [done|].
    destruct Hnot. left. lia.
Qed.

(** C2: when the ids of the enriched records are unique, the approved
    records (amount below the threshold, or id approved) and the rejected
    records (id rejected) partition the records: together they are a
    permutation of the records, and every record is in exactly one of the
    two. *)
Theorem reconciliation_partition (w : world) (date : string)
    (processed : list record) :
  NoDup (id <$> processed) →
  ∃ approved_ids rejected_ids approved rejected,
    result (approval_gate w date processed)
      = Done (approved_ids, rejected_ids) ∧
    approved = select_approved processed approved_ids ∧
    rejected = select_rejected processed rejected_ids ∧
    result (reconcile w date processed) = Done (approved, rejected) ∧
    approved ++ rejected ≡ₚ processed ∧
    ∀ r, r ∈ processed →
         (r ∈ approved ∧ r ∉ rejected) ∨ ((r ∉ approved) ∧ r ∈ rejected).
Proof.
  intros Hnd.
  destruct (approval_gate_result w date processed)
    as (approved_ids & rejected_ids & Hgate & Hrej & Hrec & Happ).
  exists approved_ids, rejected_ids,
    (select_approved processed approved_ids),
    (select_rejected processed rejected_ids).
  split; [done|]. split; [done|]. split; [done|]. split; [done|].
  assert (select_rejected processed rejected_ids =
          filter (λ r, ¬ (amount r < HIGH_VALUE_THRESHOLD ∨
                          id r ∈ approved_ids)) processed) as ->.
  { unfold select_rejected. apply filter_ext_in. intros r Hr.
    rewrite Hrej, rejected_iff_not_approved by done.
    assert (r ∈ select_approved processed approved_ids ↔
            r ∈ select_approved processed
                  (list_intersection (approved_ids_of (callback_payload w))
                     (high_value_ids_of processed))) as Hiff
      by by rewrite Happ.
    unfold select_approved in Hiff. rewrite !list_elem_of_filter in Hiff.
    tauto. }
  split; [apply filter_app_complement|].
  intros r Hr. unfold select_approved. rewrite !list_elem_of_filter.
  destruct (decide (amount r < HIGH_VALUE_THRESHOLD ∨ id r ∈ approved_ids));
    tauto.
Qed.

Lemma reconciliation_partition_witness :
  NoDup (id <$> sample_processed) ∧
  ∃ approved_ids rejected_ids approved rejected,
    result (approval_gate sample_world "2025-01-15" sample_processed)
      = Done (approved_ids, rejected_ids) ∧
    approved = select_approved sample_processed approved_ids ∧
    rejected = select_rejected sample_processed rejected_ids ∧
    result (reconcile sample_world "2025-01-15" sample_processed)
      = Done (approved, rejected) ∧
    approved ++ rejected ≡ₚ sample_processed ∧
    ∀ r, r ∈ sample_processed →
         (r ∈ approved ∧ r ∉ rejected) ∨ ((r ∉ approved) ∧ r ∈ rejected).
Proof.
  assert (NoDup (id <$> sample_processed)) as Hnd
    by (apply (bool_decide_unpack _); vm_compute; exact I).
  split; [exact Hnd|].
  exact (reconciliation_partition sample_world "2025-01-15"
           sample_processed Hnd).
Defined.

(** C5: when no record reaches the threshold, the list of high-value ids
    is empty, the gate has no interaction with the outside world (its
    trace is empty: no callback is created, no approval request is sent)
    and it resolves with every record approved and none rejected. *)
Theorem approval_gate_no_high_value (w : world) (date : string)
    (processed : list record) :
  Forall (λ r, amount r < HIGH_VALUE_THRESHOLD) processed →
  high_value_ids_of processed = [] ∧
  approval_gate w date processed = ([], Done ([], [])) ∧
  reconcile w date processed = ([], Done (processed, [])).
Proof.
  intros Hall. rewrite Forall_forall in Hall.
  assert (high_value_ids_of processed = []) as EH.
  { unfold high_value_ids_of. rewrite filter_none; [done|].
    intros r Hr. specialize (Hall r Hr). lia. }
  split; [done|].
  assert (approval_gate w date processed = ([], Done ([], []))) as Hgate
    by by rewrite approval_gate_run, EH.
  split; [done|].
  unfold reconcile. rewrite Hgate, bind_done. cbn.
  unfold select_approved, select_rejected.
  rewrite filter_all, filter_none; [done| |].
  - intros r _ Hin. by apply elem_of_nil in Hin.
  - intros r Hr. left. by apply Hall.
Qed.

Lemma approval_gate_no_high_value_witness :
  approval_gate sample_world "2025-01-15"
    [with_enrichment (sale "S-0001" 15) 1 16;
     with_enrichment (sale "S-0004" 999999) 99999 1099998]
  = ([], Done ([], [])).
Proof.
  apply (approval_gate_no_high_value sample_world "2025-01-15"
           [with_enrichment (sale "S-0001" 15) 1 16;
            with_enrichment (sale "S-0004" 999999) 99999 1099998]).
  repeat constructor.
Defined.

(** ** The ledger stage *)

(** The runtime cannot read the dict of lines 252-255: the first call that
    raises ends the step with [AttributeError], whatever the number of
    attempts made so far. *)
Lemma context_step_retry_dict {A} (step : M A) (failed : event) (e : exn)
    (failures : nat) (n : Z) :
  context_step_retry retry_strategy step failed e (S failures) n
  = ([failed], Raise AttributeError).
Proof. reflexivity. Qed.

Lemma sync_batch_ok (w : world) (i : nat) (batch : list record) :
  sync_failures w i = 0%nat →
  sync_batch w i batch = ([EvSync batch], Done (length batch)).
Proof. intros Hf. unfold sync_batch. by rewrite Hf. Qed.

Lemma sync_batch_fail (w : world) (i : nat) (batch : list record) :
  (0 < sync_failures w i)%nat →
  sync_batch w i batch = ([EvSyncFailed batch], Raise AttributeError).
Proof.
  intros Hf. unfold sync_batch.
  destruct (sync_failures w i) as [|f]; [lia|].
  apply context_step_retry_dict.
Qed.

(** The loop over offsets and slices is the sequence of the consecutive
    batches. *)
Lemma ledger_sync_from (w : world) (all : list record) (m k : nat) :
  length (drop k all) = m →
  for_each ((λ i, i + k)%nat <$> Py.range (length (drop k all)) API_BATCH_SIZE)
    (λ i,
       let batch := Py.slice all i (i + API_BATCH_SIZE) in
       _ ← context_step_retry retry_strategy (sync_to_external_api batch)
             (EvSyncFailed batch) SyncFailure (sync_failures w i) 1;
       if decide (i + API_BATCH_SIZE < length all)%nat
       then context_wait API_RATE_LIMIT_WAIT_SECONDS
       else mret tt)
  = sync_batches w k (chunks API_BATCH_SIZE (drop k all)).
Proof.
  revert k. induction m as [m IH] using lt_wf_ind. intros k Hm.
  assert (0 < API_BATCH_SIZE)%nat as Hn by (unfold API_BATCH_SIZE; lia).
  destruct (drop k all) as [|x l] eqn:E.
  - cbn [length]. by rewrite range_nil.
  - rewrite <- E in *.
    assert (drop k all ≠ []) as Hne by by rewrite E.
    assert (0 < length (drop k all))%nat as Hpos by (rewrite E; cbn; lia).
    rewrite range_cons, chunks_cons by done.
    cbn [fmap list_fmap for_each sync_batches]. cbn zeta.
    rewrite <- list_fmap_compose, drop_drop.
    replace (length (drop k all) - API_BATCH_SIZE)%nat
      with (length (drop (k + API_BATCH_SIZE) all))
      by (rewrite !length_drop; lia).
    erewrite (list_fmap_ext _ (λ i, i + (k + API_BATCH_SIZE))%nat);
      [|intros _ i _; cbn; lia].
    rewrite (IH (length (drop (k + API_BATCH_SIZE) all)));
      [|rewrite <- Hm, !length_drop; rewrite length_drop in Hpos; lia|done].
    rewrite bind_assoc. unfold sync_batch.
    replace (Py.slice all (0 + k) (0 + k + API_BATCH_SIZE))
      with (take API_BATCH_SIZE (drop k all))
      by (unfold Py.slice; do 2 f_equal; lia).
    apply bind_ext. intros _. f_equal.
    destruct (decide (0 + k + API_BATCH_SIZE < length all)%nat) as [Hlt|Hge].
    + destruct (drop (k + API_BATCH_SIZE) all) as [|y l'] eqn:E'.
      * apply (f_equal length) in E'. rewrite length_drop in E'.
        cbn in E'. lia.
      * rewrite chunks_cons by done. done.
    + rewrite drop_ge by lia. done.
Qed.

Lemma ledger_sync_chunks (w : world) (approved_records : list record) :
  ledger_sync w approved_records =
  sync_batches w 0 (chunks API_BATCH_SIZE approved_records).
Proof.
  pose proof (ledger_sync_from w approved_records
                (length approved_records) 0 eq_refl) as H.
  rewrite drop_0 in H. rewrite <- H. unfold ledger_sync.
  f_equal. rewrite <- (list_fmap_id (Py.range _ _)) at 1.
  apply list_fmap_ext. intros _ i _. cbn. lia.
Qed.

Lemma synced_batches_app (t1 t2 : list event) :
  synced_batches (t1 ++ t2) = synced_batches t1 ++ synced_batches t2.
Proof. apply omap_app. Qed.

Lemma attempted_batches_app (t1 t2 : list event) :
  attempted_batches (t1 ++ t2) = attempted_batches t1 ++ attempted_batches t2.
Proof. apply omap_app. Qed.

Lemma rate_limit_waits_app (t1 t2 : list event) :
  rate_limit_waits (t1 ++ t2) = rate_limit_waits t1 ++ rate_limit_waits t2.
Proof. apply omap_app. Qed.

Lemma retry_delays_app (t1 t2 : list event) :
  retry_delays (t1 ++ t2) = retry_delays t1 ++ retry_delays t2.
Proof. apply omap_app. Qed.

(** When the call of every batch returns, the stage is one call per batch
    with a wait between two batches. *)
Lemma sync_batches_ok (w : world) (i : nat) (batches : list (list record)) :
  (∀ j, (j < length batches)%nat →
        sync_failures w (i + j * API_BATCH_SIZE) = 0%nat) →
  sync_batches w i batches = (sync_trace batches, Done tt).
Proof.
  revert i. induction batches as [|b rest IH]; intros i Hok; [done|].
  cbn [sync_batches sync_trace].
  rewrite sync_batch_ok, bind_done.
  - rewrite IH.
    + destruct rest; cbn; done.
    + intros j Hj. specialize (Hok (S j)). cbn [length] in Hok.
      replace (i + API_BATCH_SIZE + j * API_BATCH_SIZE)%nat
        with (i + S j * API_BATCH_SIZE)%nat by lia.
      apply Hok. lia.
  - specialize (Hok 0%nat). cbn [length] in Hok.
    replace (i + 0 * API_BATCH_SIZE)%nat with i in Hok by lia.
    apply Hok. lia.
Qed.

(** In such a trace the calls are the batches, in order, all of them
    return, and there is one wait of 10 seconds less than there are
    batches. *)
Lemma sync_trace_projections (batches : list (list record)) :
  synced_batches (sync_trace batches) = batches ∧
  attempted_batches (sync_trace batches) = batches ∧
  rate_limit_waits (sync_trace batches)
    = replicate (length batches - 1) 10 ∧
  retry_delays (sync_trace batches) = [].
Proof.
  induction batches as [|b rest (IH1 & IH2 & IH3 & IH4)]; [done|].
  cbn [sync_trace]. destruct rest as [|b' rest']; [done|].
  unfold synced_batches, attempted_batches, rate_limit_waits, retry_delays
    in *.
  cbn [omap list_omap] in *. rewrite IH1, IH2, IH3, IH4. cbn [length].
  by replace (S (S (length rest')) - 1)%nat
    with (S (S (length rest') - 1)) by lia.
Qed.

(** The first batch whose call raises ends the stage: the batches before
    it are synced, each followed by its wait; the batches after it leave
    no event. *)
Lemma sync_batches_first_failure (w : world) (i : nat)
    (pre post : list (list record)) (b : list record) :
  (∀ j, (j < length pre)%nat →
        sync_failures w (i + j * API_BATCH_SIZE) = 0%nat) →
  (0 < sync_failures w (i + length pre * API_BATCH_SIZE))%nat →
  sync_batches w i (pre ++ b :: post)
  = (failed_sync_trace pre b, Raise AttributeError).
Proof.
  revert i. induction pre as [|p pre IH]; intros i Hpre Hb.
  - cbn [app length sync_batches] in *.
    replace (i + 0 * API_BATCH_SIZE)%nat with i in Hb by lia.
    by rewrite sync_batch_fail by done.
  - cbn [app sync_batches].
    assert (sync_failures w i = 0%nat) as Hp.
    { specialize (Hpre 0%nat). cbn [length] in Hpre.
      replace (i + 0 * API_BATCH_SIZE)%nat with i in Hpre by lia.
      apply Hpre. lia. }
    rewrite sync_batch_ok, bind_done by done.
    rewrite (IH (i + API_BATCH_SIZE)%nat).
    + by destruct pre.
    + intros j Hj. specialize (Hpre (S j)). cbn [length] in Hpre.
      replace (i + API_BATCH_SIZE + j * API_BATCH_SIZE)%nat
        with (i + S j * API_BATCH_SIZE)%nat by lia.
      apply Hpre. lia.
    + cbn [length] in Hb.
      by replace (i + API_BATCH_SIZE + length pre * API_BATCH_SIZE)%nat
        with (i + S (length pre) * API_BATCH_SIZE)%nat by lia.
Qed.

Lemma failed_sync_trace_projections (pre : list (list record))
    (b : list record) :
  synced_batches (failed_sync_trace pre b) = pre ∧
  attempted_batches (failed_sync_trace pre b) = pre ++ [b] ∧
  rate_limit_waits (failed_sync_trace pre b) = replicate (length pre) 10 ∧
  retry_delays (failed_sync_trace pre b) = [].
Proof.
  unfold failed_sync_trace.
  induction pre as [|p pre (IH1 & IH2 & IH3 & IH4)]; [done|].
  cbn [fmap list_fmap concat app length replicate].
  unfold synced_batches, attempted_batches, rate_limit_waits, retry_delays
    in *.
  cbn [omap list_omap]. by rewrite IH1, IH2, IH3, IH4.
Qed.

Lemma length_chunks_lt {A} (n k : nat) (l : list A) :
  (0 < n)%nat → (k < length (chunks n l))%nat ↔ (k * n < length l)%nat.
Proof.
  intros Hn. revert k. induction l as [|l Hl IH] using (chunk_ind n Hn);
    intros k.
  - rewrite chunks_nil. cbn [length]. lia.
  - rewrite chunks_cons by done. cbn [length].
    destruct k as [|k].
    + destruct l; [done|]. cbn [length]. lia.
    + specialize (IH k). rewrite length_drop in IH.
      cbn [Nat.mul]. lia.
Qed.

(** Either the call of no batch raises, or there is a first one whose
    call does. *)
Lemma first_failure (f : nat → nat) (n : nat) :
  (∀ j, (j < n)%nat → f j = 0%nat) ∨
  ∃ k, (k < n)%nat ∧ (∀ j, (j < k)%nat → f j = 0%nat) ∧ (0 < f k)%nat.
Proof.
  induction n as [|n [IH|(k & Hk & Hlt & Hge)]].
  - left. lia.
  - destruct (decide (f n = 0%nat)) as [Hn|Hn].
    + left. intros j Hj. destruct (decide (j = n)) as [->|]; [done|].
      apply IH. lia.
    + right. exists n. split; [lia|]. split; [done|lia].
  - right. exists k. split; [lia|done].
Qed.

(** The two ways the ledger stage ends. *)
Lemma ledger_sync_cases (w : world) (approved_records : list record) :
  let batches := chunks API_BATCH_SIZE approved_records in
  (ledger_sync w approved_records = (sync_trace batches, Done tt) ∧
   ∀ k, (k * API_BATCH_SIZE < length approved_records)%nat →
        sync_failures w (k * API_BATCH_SIZE) = 0%nat) ∨
  (∃ k, (k * API_BATCH_SIZE < length approved_records)%nat ∧
        (∀ j, (j < k)%nat → sync_failures w (j * API_BATCH_SIZE) = 0%nat) ∧
        (0 < sync_failures w (k * API_BATCH_SIZE))%nat ∧
        ledger_sync w approved_records
        = (failed_sync_trace (take k batches) (batches !!! k),
           Raise AttributeError)).
Proof.
  intros batches.
  assert (0 < API_BATCH_SIZE)%nat as Hn by (unfold API_BATCH_SIZE; lia).
  rewrite ledger_sync_chunks. fold batches.
  destruct (first_failure (λ j, sync_failures w (j * API_BATCH_SIZE))
              (length batches)) as [Hok|(k & Hk & Hlt & Hge)].
  - left. split; [by apply sync_batches_ok|].
    intros k Hk. apply Hok. by apply length_chunks_lt.
  - right. exists k. split; [by apply (length_chunks_lt API_BATCH_SIZE)|].
    split; [done|]. split; [done|].
    rewrite <- (take_drop_middle batches k (batches !!! k)) at 1
      by by apply list_lookup_lookup_total_lt.
    apply sync_batches_first_failure.
    + rewrite length_take. intros j Hj. apply Hlt. lia.
    + rewrite length_take.
      by replace (0 + k `min` length batches * API_BATCH_SIZE)%nat
        with (k * API_BATCH_SIZE)%nat by lia.
Qed.

Lemma for_each_raise {A} (l : list A) (body : A → M unit) (x : A) (e : exn) :
  x ∈ l → result (body x) = Raise e →
  (∀ y e', y ∈ l → result (body y) = Raise e' → e' = e) →
  result (for_each l body) = Raise e.
Proof.
  induction l as [|y l IH]; intros Hx Hbx Hall.
  - by apply elem_of_nil in Hx.
  - cbn [for_each]. destruct (body y) as [t [[]|e']] eqn:Ey.
    + rewrite bind_done. cbn [result snd].
      apply elem_of_cons in Hx as [->|Hx]; [by rewrite Ey in Hbx|].
      apply IH; [done..|]. intros z e'' Hz. apply Hall. by right.
    + rewrite bind_raise. cbn. f_equal. apply (Hall y); [left|].
      by rewrite Ey.
Qed.

(** One batch whose call raises fails the whole ledger stage. *)
Lemma ledger_sync_fail (w : world) (approved_records : list record) (i : nat) :
  i ∈ Py.range (length approved_records) API_BATCH_SIZE →
  (0 < sync_failures w i)%nat →
  result (ledger_sync w approved_records) = Raise AttributeError.
Proof.
  intros Hi Hf. unfold ledger_sync.
  apply (for_each_raise _ _ i); [done| |].
  - fold (sync_batch w i
            (Py.slice approved_records i (i + API_BATCH_SIZE))).
    by rewrite sync_batch_fail.
  - intros j e' _.
    fold (sync_batch w j
            (Py.slice approved_records j (j + API_BATCH_SIZE))).
    destruct (decide (sync_failures w j = 0)%nat).
    + rewrite sync_batch_ok, bind_done by done.
      by destruct (decide (j + API_BATCH_SIZE < length approved_records)%nat).
    + rewrite sync_batch_fail by lia. by intros [= <-].
Qed.

(** C4: the strategy of lines 252-255 answers with a dict, which the
    runtime cannot read: a ledger call that raises, be it once, ends its
    step, the ledger stage and the run with [AttributeError] after that one
    call.  No retry is made and no backoff delay is waited; [SyncFailure]
    is never raised. *)
Theorem ledger_retry_backoff (w : world) (approved_records : list record)
    (i : nat) :
  (0 < sync_failures w i)%nat →
  (∀ batch,
     sync_batch w i batch = ([EvSyncFailed batch], Raise AttributeError) ∧
     sync_attempts (trace (sync_batch w i batch)) = 1%nat) ∧
  (i ∈ Py.range (length approved_records) API_BATCH_SIZE →
   result (ledger_sync w approved_records) = Raise AttributeError) ∧
  (∀ w' records, retry_delays (trace (ledger_sync w' records)) = [] ∧
                 result (ledger_sync w' records) ≠ Raise SyncFailure).
Proof.
  intros Hf. split; [|split].
  - intros batch. by rewrite sync_batch_fail.
  - intros Hi. by apply (ledger_sync_fail w approved_records i).
  - intros w' records.
    destruct (ledger_sync_cases w' records)
      as [[-> _]|(k & _ & _ & _ & ->)]; cbn [trace result fst snd].
    + split; [apply sync_trace_projections|done].
    + split; [apply failed_sync_trace_projections|done].
Qed.

Lemma ledger_retry_backoff_witness :
  sync_batch second_batch_failing_world 1000
             (drop 1000 (many_sales 1500))
    = ([EvSyncFailed (drop 1000 (many_sales 1500))], Raise AttributeError) ∧
  result (ledger_sync second_batch_failing_world (many_sales 1500))
    = Raise AttributeError.
Proof.
  pose proof (ledger_retry_backoff second_batch_failing_world
                (many_sales 1500) 1000) as H.
  destruct H as (H1 & H2 & _).
  - vm_compute. lia.
  - split; [apply H1|]. apply H2. vm_compute. right. left.
Defined.

(** C6: the ledger stage is the sequence of the consecutive batches of
    1000 approved records: one ledger step per batch, in order, each
    followed by a wait of 10 seconds unless it is the last.  The batches
    concatenate to the approved records, none is empty, none has more than
    1000 records and all but the last have exactly 1000.  When the call of
    every batch returns, the trace is one call per batch, in order, with
    one wait of 10 seconds between two batches and none after the last.
    In every world the calls that returned are the first batches, in
    order; each batch is called at most once, the stage stopping at the
    first call that raises; and one wait of 10 seconds follows every call
    that returned for a batch other than the last. *)
Theorem ledger_sync_sequential (w : world) (approved_records : list record) :
  API_BATCH_SIZE = 1000%nat ∧ API_RATE_LIMIT_WAIT_SECONDS = 10 ∧
  ledger_sync w approved_records =
    sync_batches w 0 (chunks API_BATCH_SIZE approved_records) ∧
  concat (chunks API_BATCH_SIZE approved_records) = approved_records ∧
  Forall (λ b, 0 < length b ≤ API_BATCH_SIZE)%nat
         (chunks API_BATCH_SIZE approved_records) ∧
  (∀ k b, (S k < length (chunks API_BATCH_SIZE approved_records))%nat →
          chunks API_BATCH_SIZE approved_records !! k = Some b →
          length b = API_BATCH_SIZE) ∧
  ((∀ i, sync_failures w i = 0%nat) →
   ledger_sync w approved_records =
     (sync_trace (chunks API_BATCH_SIZE approved_records), Done tt) ∧
   synced_batches (trace (ledger_sync w approved_records))
     = chunks API_BATCH_SIZE approved_records ∧
   rate_limit_waits (trace (ledger_sync w approved_records))
     = replicate (length (chunks API_BATCH_SIZE approved_records) - 1) 10) ∧
  (∃ k, (k ≤ length (chunks API_BATCH_SIZE approved_records))%nat ∧
     synced_batches (trace (ledger_sync w approved_records))
       = take k (chunks API_BATCH_SIZE approved_records) ∧
     attempted_batches (trace (ledger_sync w approved_records))
       = take (S k) (chunks API_BATCH_SIZE approved_records) ∧
     rate_limit_waits (trace (ledger_sync w approved_records))
       = replicate
           (k `min` (length (chunks API_BATCH_SIZE approved_records) - 1))
           10).
Proof.
  assert (0 < API_BATCH_SIZE)%nat as Hn by (unfold API_BATCH_SIZE; lia).
  split; [done|]. split; [done|].
  split; [apply ledger_sync_chunks|].
  split; [by apply concat_chunks|].
  destruct (chunks_lengths API_BATCH_SIZE approved_records Hn) as [H1 H2].
  split; [done|]. split; [done|]. split.
  - intros Hok. rewrite ledger_sync_chunks, sync_batches_ok by done.
    split; [done|]. cbn [trace fst].
    destruct (sync_trace_projections
                (chunks API_BATCH_SIZE approved_records)) as (? & _ & ? & _).
    done.
  - destruct (ledger_sync_cases w approved_records)
      as [[-> _]|(k & Hk & _ & _ & ->)]; cbn [trace fst].
    + exists (length (chunks API_BATCH_SIZE approved_records)).
      destruct (sync_trace_projections
                  (chunks API_BATCH_SIZE approved_records))
        as (-> & -> & -> & _).
      split; [done|]. rewrite !take_ge by lia. split; [done|].
      split; [done|]. f_equal. lia.
    + apply (length_chunks_lt API_BATCH_SIZE) in Hk; [|done].
      exists k.
      destruct (failed_sync_trace_projections
                  (take k (chunks API_BATCH_SIZE approved_records))
                  (chunks API_BATCH_SIZE approved_records !!! k))
        as (-> & -> & -> & _).
      split; [lia|]. split; [done|]. split.
      * symmetry. apply take_S_r. by apply list_lookup_lookup_total_lt.
      * rewrite length_take. f_equal. lia.
Qed.

Lemma ledger_sync_sequential_witness :
  ledger_sync sample_world (many_sales 2500) =
    (sync_trace (chunks API_BATCH_SIZE (many_sales 2500)), Done tt) ∧
  length <$> synced_batches (trace (ledger_sync sample_world (many_sales 2500)))
    = [1000; 1000; 500]%nat ∧
  rate_limit_waits (trace (ledger_sync sample_world (many_sales 2500)))
    = [10; 10].
Proof.
  split.
  - apply (ledger_sync_sequential sample_world (many_sales 2500)).
    intros i. reflexivity.
  - split; vm_compute; reflexivity.
Defined.

(** ** The report *)


Lemma sum_amount_cons (r : record) (l : list record) :
  sum_amount (r :: l) = amount r + sum_amount l.
Proof.
  unfold sum_amount. cbn [foldl].
  assert (∀ a b, foldl (λ acc r0, acc + amount r0) (a + b) l
                 = a + foldl (λ acc r0, acc + amount r0) b l) as H.
  { induction l as [|x l IH]; intros a b; [done|].
    cbn [foldl]. by rewrite <- Z.add_assoc, IH. }
  rewrite (Z.add_comm 0), H. lia.
Qed.

(** The accumulating sum of the code is the sum of the amounts. *)
Lemma sum_amount_sum (l : list record) : sum_amount l = sum_Z (amount <$> l).
Proof.
  induction l as [|r l IH]; [done|].
  rewrite sum_amount_cons, IH. done.
Qed.

(** The report when the object store accepts what it is given. *)
Lemma generate_report_run (w : world) (bucket date : string)
    (approved_records rejected_records : list record) :
  (rejected_records ≠ [] → put_fails w bucket (rejected_key date) = false) →
  put_fails w bucket (summary_key date) = false →
  generate_report w bucket date approved_records rejected_records =
    (match rejected_records with
     | [] => []
     | _ :: _ =>
         [EvPutObject bucket (rejected_key date)
            (RejectedReport date (length rejected_records)
               (sum_amount rejected_records) rejected_records)]
     end ++
     [EvPutObject bucket (summary_key date)
        (SummaryReport date (length approved_records)
           (length rejected_records) (sum_amount approved_records)
           (sum_amount rejected_records))],
     Done {| summary_url := s3_url bucket (summary_key date);
             rejected_url :=
               match rejected_records with
               | [] => None
               | _ :: _ => Some (s3_url bucket (rejected_key date))
               end |}).
Proof.
  intros Hd Hs. unfold generate_report, s3_put_object. rewrite Hs.
  destruct rejected_records as [|r l]; [done|].
  by rewrite Hd.
Qed.



(** The report stage makes stores and nothing else, and stores at most one
    summary. *)
Lemma generate_report_stores (w : world) (bucket date : string)
    (approved_records rejected_records : list record) :
  Forall (λ e, is_store_event e = true)
    (trace (generate_report w bucket date approved_records
              rejected_records)) ∧
  (length (stored_summaries
             (trace (generate_report w bucket date approved_records
                       rejected_records))) ≤ 1)%nat.
Proof.
  unfold generate_report, s3_put_object.
  destruct rejected_records as [|r l];
    destruct (put_fails w bucket (summary_key date));
    try destruct (put_fails w bucket (rejected_key date));
    cbn; split; try lia; by repeat constructor.
Qed.




(** ** The whole workflow *)

(** *** Resumptions *)

Lemma replay_resumed (again t : list event) :
  Forall (λ e, outside_operations e = false) t →
  replay again t = resumed again t.
Proof.
  induction 1 as [|e t He _ IH]; [done|].
  cbn [replay]. rewrite He, IH. done.
Qed.

Lemma resumed_app (again t1 t2 : list event) :
  resumed again (t1 ++ t2) = resumed again t1 ++ resumed again t2.
Proof. unfold resumed. by rewrite fmap_app, concat_app. Qed.

Lemma resumed_no_suspension (again t : list event) :
  Forall (λ e, suspends e = false) t → resumed again t = t.
Proof.
  induction 1 as [|e t He _ IH]; [done|].
  unfold resumed in *. cbn [fmap list_fmap concat]. by rewrite He, IH.
Qed.

Lemma omap_resumed {B} (p : event → option B) (again t : list event) :
  Forall (λ e, p e = None) again →
  omap p (resumed again t) = omap p t.
Proof.
  intros Hagain.
  assert (omap p again = []) as Hnil.
  { induction Hagain as [|e l He _ IH]; [done|].
    cbn [omap list_omap]. by rewrite He. }
  induction t as [|e t IH]; [done|].
  unfold resumed in *. cbn [fmap list_fmap concat].
  rewrite omap_app, IH. cbn [omap list_omap].
  destruct (suspends e); rewrite ?Hnil; cbn [omap list_omap];
    by destruct (p e).
Qed.

Lemma Forall_resumed (P : event → Prop) (again t : list event) :
  Forall P again → Forall P t → Forall P (resumed again t).
Proof.
  intros Hagain. induction 1 as [|e t He _ IH]; [constructor|].
  unfold resumed in *. cbn [fmap list_fmap concat].
  constructor; [done|]. apply Forall_app. split; [|done].
  by destruct (suspends e).
Qed.

Lemma without_requests_resumed (again t : list event) :
  Forall (λ e, outside_operations e = true) again →
  without_requests (resumed again t) = without_requests t.
Proof.
  intros Hagain.
  assert (without_requests again = []) as Hnil.
  { unfold without_requests. apply filter_none.
    intros e He. apply (proj1 (Forall_forall _ _) Hagain) in He.
    by rewrite He. }
  induction t as [|e t IH]; [done|].
  unfold resumed, without_requests in *. cbn [fmap list_fmap concat].
  rewrite filter_app, IH, !filter_cons.
  destruct (suspends e); rewrite ?Hnil, ?filter_nil;
    by destruct (decide (outside_operations e = false)).
Qed.

(** *** The stages of the handler *)

Lemma gate_events (w : world) (date : string) (processed : list record) :
  Forall (λ e, is_gate_event e = true)
         (trace (approval_gate w date processed)).
Proof.
  rewrite approval_gate_run.
  destruct (high_value_ids_of processed); by repeat constructor.
Qed.

Lemma sync_trace_ledger (batches : list (list record)) :
  Forall (λ e, is_ledger_event e = true) (sync_trace batches).
Proof.
  induction batches as [|b rest IH]; [constructor|].
  cbn [sync_trace]. constructor; [done|].
  destruct rest; [constructor|]. by constructor.
Qed.

Lemma failed_sync_trace_ledger (pre : list (list record)) (b : list record) :
  Forall (λ e, is_ledger_event e = true) (failed_sync_trace pre b).
Proof.
  unfold failed_sync_trace. apply Forall_app. split; [|by repeat constructor].
  induction pre as [|p pre IH]; [constructor|].
  cbn [fmap list_fmap concat app]. by repeat constructor.
Qed.

Lemma ledger_events (w : world) (approved_records : list record) :
  Forall (λ e, is_ledger_event e = true)
         (trace (ledger_sync w approved_records)).
Proof.
  destruct (ledger_sync_cases w approved_records)
    as [[-> _]|(k & _ & _ & _ & ->)]; cbn [trace fst].
  - apply sync_trace_ledger.
  - apply failed_sync_trace_ledger.
Qed.

Lemma gate_not_outside (t : list event) :
  Forall (λ e, is_gate_event e = true) t →
  Forall (λ e, outside_operations e = false) t.
Proof. intros H. eapply Forall_impl; [done|]. by intros []. Qed.

Lemma ledger_not_outside (t : list event) :
  Forall (λ e, is_ledger_event e = true) t →
  Forall (λ e, outside_operations e = false) t.
Proof. intros H. eapply Forall_impl; [done|]. by intros []. Qed.

Lemma stores_not_outside (t : list event) :
  Forall (λ e, is_store_event e = true) t →
  Forall (λ e, outside_operations e = false) t.
Proof. intros H. eapply Forall_impl; [done|]. by intros []. Qed.

Lemma stores_not_suspending (t : list event) :
  Forall (λ e, is_store_event e = true) t →
  Forall (λ e, suspends e = false) t.
Proof. intros H. eapply Forall_impl; [done|]. by intros []. Qed.

(** The gate always resolves. *)
Lemma approval_gate_done (w : world) (date : string)
    (processed : list record) :
  ∃ approved_ids rejected_ids,
    result (approval_gate w date processed)
      = Done (approved_ids, rejected_ids) ∧
    (∀ i, i ∈ approved_ids → i ∈ approved_ids_of (callback_payload w)) ∧
    (∀ i, i ∈ rejected_ids ↔
          i ∈ high_value_ids_of processed ∧ i ∉ approved_ids) ∧
    (high_value_ids_of processed ≠ [] →
     approved_ids = approved_ids_of (callback_payload w)).
Proof.
  rewrite approval_gate_run.
  destruct (high_value_ids_of processed) as [|h H] eqn:EH.
  - exists [], []. split; [done|]. split; [by intros i ?%elem_of_nil|].
    split; [|done]. intros i. split; [by intros ?%elem_of_nil|].
    by intros [?%elem_of_nil _].
  - eexists _, _. split; [done|]. split; [done|]. split; [|done].
    intros i. rewrite list_elem_of_filter. tauto.
Qed.

(** The ids the gate resolves with, in terms of the decision payload. *)
Lemma approval_gate_ids (w : world) (date : string)
    (processed : list record) (approved_ids rejected_ids : list string) :
  result (approval_gate w date processed) = Done (approved_ids, rejected_ids) →
  select_approved processed approved_ids
    = select_approved processed (approved_ids_of (callback_payload w)) ∧
  rejected_ids = filter (λ i, i ∉ approved_ids_of (callback_payload w))
                        (high_value_ids_of processed).
Proof.
  rewrite approval_gate_run.
  destruct (high_value_ids_of processed) as [|h H] eqn:EH;
    intros [= <- <-]; [|done].
  split; [|done]. unfold select_approved. apply filter_ext_in.
  intros r Hr.
  assert (amount r < HIGH_VALUE_THRESHOLD) as Hlt; [|tauto].
  destruct (decide (amount r < HIGH_VALUE_THRESHOLD)) as [|Hge]; [done|].
  assert (id r ∈ high_value_ids_of processed) as Hin.
  { apply elem_of_high_value_ids. exists r. split; [done|]. split; [done|lia]. }
  rewrite EH in Hin. by apply elem_of_nil in Hin.
Qed.

Lemma lambda_handler_no_object (w : world) (bucket date : string) :
  s3_objects w bucket ("sales/" +:+ date +:+ ".csv") = None →
  lambda_handler w bucket date =
    ([EvGetObject bucket ("sales/" +:+ date +:+ ".csv")], Raise NoSuchKey).
Proof.
  intros Hfetch.
  unfold lambda_handler, durable_execution, lambda_handler_body,
    fetch_sales_data.
  by rewrite Hfetch.
Qed.

(** One pass through the body of the handler once the rows are read: the
    Enricher, the gate, the ledger stage and, unless the ledger stage
    raised, the report. *)
Lemma lambda_handler_body_run (w : world) (bucket date : string)
    (records processed : list record) (approved_ids rejected_ids : list string) :
  s3_objects w bucket ("sales/" +:+ date +:+ ".csv") = Some records →
  result (enricher w records) = Done processed →
  result (approval_gate w date processed) = Done (approved_ids, rejected_ids) →
  lambda_handler_body w bucket date =
    match ledger_sync w (select_approved processed approved_ids) with
    | (tl, Done _) =>
        ([EvGetObject bucket ("sales/" +:+ date +:+ ".csv")] ++
         trace (approval_gate w date processed) ++ tl ++
         trace (generate_report w bucket date
                  (select_approved processed approved_ids)
                  (select_rejected processed rejected_ids)),
         match result (generate_report w bucket date
                         (select_approved processed approved_ids)
                         (select_rejected processed rejected_ids)) with
         | Done rep =>
             Done {| resp_status := "completed";
                     resp_date := date;
                     resp_total_records := length records;
                     resp_approved_records :=
                       length (select_approved processed approved_ids);
                     resp_rejected_records :=
                       length (select_rejected processed rejected_ids);
                     resp_report_url := summary_url rep |}
         | Raise e => Raise e
         end)
    | (tl, Raise e) =>
        ([EvGetObject bucket ("sales/" +:+ date +:+ ".csv")] ++
         trace (approval_gate w date processed) ++ tl, Raise e)
    end.
Proof.
  intros Hfetch Henr Hgate.
  assert (fetch_sales_data w bucket ("sales/" +:+ date +:+ ".csv")
          = ([EvGetObject bucket ("sales/" +:+ date +:+ ".csv")],
             Done records)) as Hf.
  { unfold fetch_sales_data. by rewrite Hfetch. }
  assert (enricher w records = ([], Done processed)) as He.
  { rewrite enricher_run in Henr |- *. cbn [result snd] in Henr.
    by injection Henr as ->. }
  unfold lambda_handler_body, context_step. rewrite Hf, bind_done.
  cbn beta. rewrite He, bind_done. cbn beta.
  destruct (approval_gate w date processed) as [tg rg] eqn:Eg.
  cbn in Hgate. subst rg.
  rewrite bind_done. cbn beta iota. cbn [fst snd app].
  destruct (ledger_sync w (select_approved processed approved_ids))
    as [tl [[]|e]].
  - rewrite !bind_done. cbn [fst snd trace result].
    destruct (generate_report w bucket date
                (select_approved processed approved_ids)
                (select_rejected processed rejected_ids)) as [tr [rep|e]].
    + rewrite bind_done. cbn. by rewrite !app_nil_r.
    + by rewrite bind_raise.
  - rewrite bind_raise. done.
Qed.

(** The run of the handler, resumptions included: the object is requested
    again after every suspension. *)
Lemma lambda_handler_run (w : world) (bucket date : string)
    (records processed : list record) (approved_ids rejected_ids : list string) :
  s3_objects w bucket ("sales/" +:+ date +:+ ".csv") = Some records →
  result (enricher w records) = Done processed →
  result (approval_gate w date processed) = Done (approved_ids, rejected_ids) →
  lambda_handler w bucket date =
    match ledger_sync w (select_approved processed approved_ids) with
    | (tl, Done _) =>
        (EvGetObject bucket ("sales/" +:+ date +:+ ".csv") ::
         resumed [EvGetObject bucket ("sales/" +:+ date +:+ ".csv")]
           (trace (approval_gate w date processed) ++ tl) ++
         trace (generate_report w bucket date
                  (select_approved processed approved_ids)
                  (select_rejected processed rejected_ids)),
         match result (generate_report w bucket date
                         (select_approved processed approved_ids)
                         (select_rejected processed rejected_ids)) with
         | Done rep =>
             Done {| resp_status := "completed";
                     resp_date := date;
                     resp_total_records := length records;
                     resp_approved_records :=
                       length (select_approved processed approved_ids);
                     resp_rejected_records :=
                       length (select_rejected processed rejected_ids);
                     resp_report_url := summary_url rep |}
         | Raise e => Raise e
         end)
    | (tl, Raise e) =>
        (EvGetObject bucket ("sales/" +:+ date +:+ ".csv") ::
         resumed [EvGetObject bucket ("sales/" +:+ date +:+ ".csv")]
           (trace (approval_gate w date processed) ++ tl), Raise e)
    end.
Proof.
  intros Hfetch Henr Hgate.
  unfold lambda_handler, durable_execution.
  rewrite (lambda_handler_body_run w bucket date records processed
             approved_ids rejected_ids) by done.
  pose proof (gate_not_outside _ (gate_events w date processed)) as Hg.
  pose proof (ledger_not_outside _
    (ledger_events w (select_approved processed approved_ids))) as Hl.
  destruct (generate_report_stores w bucket date
              (select_approved processed approved_ids)
              (select_rejected processed rejected_ids)) as [Hs _].
  destruct (ledger_sync w (select_approved processed approved_ids))
    as [tl [[]|e]]; cbn [trace result fst snd app replay outside_operations
                         suspends] in *.
  - f_equal. f_equal. rewrite replay_resumed.
    + rewrite !app_assoc, resumed_app. f_equal.
      apply resumed_no_suspension. by apply stores_not_suspending.
    + rewrite !Forall_app. split; [done|]. split; [done|].
      by apply stores_not_outside.
  - f_equal. f_equal. rewrite replay_resumed; [done|].
    rewrite Forall_app. by split.
Qed.

(** The shape of the trace of the handler once the rows are read. *)
Lemma lambda_handler_trace (w : world) (bucket date : string)
    (records processed : list record) (approved_ids rejected_ids : list string) :
  s3_objects w bucket ("sales/" +:+ date +:+ ".csv") = Some records →
  result (enricher w records) = Done processed →
  result (approval_gate w date processed) = Done (approved_ids, rejected_ids) →
  ∃ stores,
    trace (lambda_handler w bucket date) =
      EvGetObject bucket ("sales/" +:+ date +:+ ".csv") ::
      resumed [EvGetObject bucket ("sales/" +:+ date +:+ ".csv")]
        (trace (approval_gate w date processed) ++
         trace (ledger_sync w (select_approved processed approved_ids))) ++
      stores ∧
    Forall (λ e, is_store_event e = true) stores ∧
    (is_done (result (ledger_sync w
                        (select_approved processed approved_ids))) = false →
     stores = []).
Proof.
  intros Hfetch Henr Hgate.
  rewrite (lambda_handler_run w bucket date records processed
             approved_ids rejected_ids) by done.
  destruct (generate_report_stores w bucket date
              (select_approved processed approved_ids)
              (select_rejected processed rejected_ids)) as [Hs _].
  destruct (ledger_sync w (select_approved processed approved_ids))
    as [tl [[]|e]]; cbn [trace result fst snd is_done].
  - eexists. split; [done|]. by split.
  - exists []. rewrite app_nil_r. split; [done|]. by split.
Qed.



(** ** Further properties of the workflow *)

(** The records of a slice are records of the list. *)
Lemma elem_of_chunks {A} (n : nat) (l b : list A) (x : A) :
  (0 < n)%nat → b ∈ chunks n l → x ∈ b → x ∈ l.
Proof.
  intros Hn Hb Hx. rewrite <- (concat_chunks n l Hn).
  apply list_elem_of_In, in_concat. exists b.
  split; by apply list_elem_of_In.
Qed.

Lemma concat_take_chunks {A} (n k : nat) (l : list A) :
  (0 < n)%nat → concat (take k (chunks n l)) = take (k * n) l.
Proof.
  intros Hn. revert k. induction l as [|l Hl IH] using (chunk_ind n Hn);
    intros k.
  - rewrite chunks_nil, !take_nil. done.
  - rewrite chunks_cons by done. destruct k as [|k]; [done|].
    cbn [take concat]. rewrite IH.
    rewrite <- (take_drop n l) at 3.
    destruct (decide (n ≤ length l)%nat) as [Hle|Hgt].
    + rewrite take_app_ge by (rewrite length_take; lia).
      rewrite length_take. f_equal. f_equal. lia.
    + rewrite drop_ge, take_nil, app_nil_r by lia.
      symmetry. apply take_ge. rewrite length_take. lia.
Qed.

Lemma chunks_take {A} (n k : nat) (l : list A) :
  (0 < n)%nat → chunks n (take (k * n) l) = take k (chunks n l).
Proof.
  intros Hn. revert k. induction l as [|l Hl IH] using (chunk_ind n Hn);
    intros k.
  - by rewrite take_nil, chunks_nil, take_nil.
  - destruct k as [|k]; [done|].
    rewrite (chunks_cons n l) by done. cbn [take].
    rewrite chunks_cons; [|done|].
    + f_equal.
      * rewrite take_take. f_equal. lia.
      * rewrite <- IH. f_equal. cbn [Nat.mul].
        by rewrite take_drop_commute.
    + destruct l; [done|]. cbn [Nat.mul]. destruct n; [lia|done].
Qed.

(** *** Observations on the trace of the handler *)

Lemma gate_observations (t : list event) :
  Forall (λ e, is_gate_event e = true) t →
  attempted_batches t = [] ∧ synced_batches t = [] ∧
  stored_summaries t = [].
Proof. induction 1 as [|e l He _ IH]; [done|]. by destruct e. Qed.

Lemma ledger_observations (t : list event) :
  Forall (λ e, is_ledger_event e = true) t →
  stored_summaries t = [] ∧ approval_requests t = [] ∧
  created_callbacks t = [].
Proof. induction 1 as [|e l He _ IH]; [done|]. by destruct e. Qed.

Lemma store_observations (t : list event) :
  Forall (λ e, is_store_event e = true) t →
  attempted_batches t = [] ∧ synced_batches t = [] ∧
  approval_requests t = [] ∧ created_callbacks t = [].
Proof. induction 1 as [|e l He _ IH]; [done|]. by destruct e. Qed.

(** An observation that does not see the requests for the object sees the
    gate, the ledger stage and the report, in this order. *)
Lemma lambda_handler_projection {B} (p : event → option B)
    (w : world) (bucket date : string)
    (records processed : list record) (approved_ids rejected_ids : list string) :
  s3_objects w bucket ("sales/" +:+ date +:+ ".csv") = Some records →
  result (enricher w records) = Done processed →
  result (approval_gate w date processed) = Done (approved_ids, rejected_ids) →
  (∀ b k, p (EvGetObject b k) = None) →
  omap p (trace (lambda_handler w bucket date)) =
    omap p (trace (approval_gate w date processed)) ++
    omap p (trace (ledger_sync w (select_approved processed approved_ids))) ++
    (if is_done (result (ledger_sync w
                           (select_approved processed approved_ids)))
     then omap p (trace (generate_report w bucket date
                           (select_approved processed approved_ids)
                           (select_rejected processed rejected_ids)))
     else []).
Proof.
  intros Hfetch Henr Hgate Hp.
  rewrite (lambda_handler_run w bucket date records processed
             approved_ids rejected_ids) by done.
  destruct (ledger_sync w (select_approved processed approved_ids))
    as [tl [[]|e]]; cbn [trace result fst snd is_done];
    cbn [omap list_omap]; rewrite Hp, ?omap_app, omap_resumed, ?omap_app,
      ?app_nil_r, <- ?app_assoc; try done; by repeat constructor.
Qed.

(** The batches handed to the ledger are batches of the approved
    records. *)
Lemma ledger_attempted (w : world) (approved_records : list record)
    (b : list record) :
  b ∈ attempted_batches (trace (ledger_sync w approved_records)) →
  b ∈ chunks API_BATCH_SIZE approved_records.
Proof.
  destruct (ledger_sync_cases w approved_records)
    as [[-> _]|(k & Hk & _ & _ & ->)]; cbn [trace fst].
  - by destruct (sync_trace_projections
                  (chunks API_BATCH_SIZE approved_records)) as (_ & -> & _).
  - destruct (failed_sync_trace_projections
                (take k (chunks API_BATCH_SIZE approved_records))
                (chunks API_BATCH_SIZE approved_records !!! k))
      as (_ & -> & _).
    assert (k < length (chunks API_BATCH_SIZE approved_records))%nat as Hk'.
    { apply length_chunks_lt; [unfold API_BATCH_SIZE; lia|done]. }
    intros [Hb|Hb%list_elem_of_singleton]%elem_of_app.
    + eapply elem_of_sublist; [done|]. apply sublist_take.
    + subst b. by apply list_elem_of_lookup_total_2.
Qed.

(** X1 (section 4.4): a batch whose ledger call raises, be it once, aborts
    the workflow with the [AttributeError] of the retry strategy; the
    report stage is not reached: nothing is stored and no store is tried. *)
Theorem sync_failure_skips_report (w : world) (bucket date : string)
    (records processed : list record) (approved_ids rejected_ids : list string)
    (i : nat) :
  s3_objects w bucket ("sales/" +:+ date +:+ ".csv") = Some records →
  result (enricher w records) = Done processed →
  result (approval_gate w date processed) = Done (approved_ids, rejected_ids) →
  i ∈ Py.range (length (select_approved processed approved_ids))
               API_BATCH_SIZE →
  (0 < sync_failures w i)%nat →
  result (lambda_handler w bucket date) = Raise AttributeError ∧
  Forall (λ e, is_store_event e = false)
         (trace (lambda_handler w bucket date)).
Proof.
  intros Hfetch Henr Hgate Hi Hf.
  rewrite (lambda_handler_run w bucket date records processed
             approved_ids rejected_ids) by done.
  pose proof (ledger_sync_fail w _ i Hi Hf) as Hres.
  pose proof (ledger_events w (select_approved processed approved_ids))
    as Htl.
  destruct (ledger_sync w (select_approved processed approved_ids))
    as [tl [[]|e]]; [done|].
  cbn in Hres. injection Hres as ->. split; [done|].
  cbn [trace fst] in *. constructor; [done|].
  apply Forall_resumed; [by repeat constructor|].
  apply Forall_app. split.
  - eapply Forall_impl; [apply gate_events|]. by intros [].
  - eapply Forall_impl; [done|]. by intros [].
Qed.

Lemma sync_failure_skips_report_witness :
  result (lambda_handler failing_world "bucket" "2025-01-15")
  = Raise AttributeError.
Proof.
  apply (sync_failure_skips_report failing_world "bucket" "2025-01-15"
           sample_sales sample_processed [] ["S-0002"; "S-0003"] 0).
  - reflexivity.
  - vm_compute. reflexivity.
  - vm_compute. reflexivity.
  - vm_compute. left.
  - vm_compute. lia.
Defined.

(** X2: whatever the outside world answers, every record of every batch
    handed to the ledger, whether the call returns or raises, is an
    enriched record that is below the threshold or whose id the decision
    payload approves: no high-value record reaches the ledger unapproved. *)
Theorem ledger_receives_only_approved (w : world) (bucket date : string)
    (b : list record) (r : record) :
  b ∈ attempted_batches (trace (lambda_handler w bucket date)) → r ∈ b →
  (amount r < HIGH_VALUE_THRESHOLD ∨
   id r ∈ approved_ids_of (callback_payload w)) ∧
  processed r = Some true ∧ is_Some (tax r) ∧ is_Some (total r).
Proof.
  intros Hb Hr.
  destruct (s3_objects w bucket ("sales/" +:+ date +:+ ".csv"))
    as [records|] eqn:Hfetch;
    [|rewrite lambda_handler_no_object in Hb by done;
      by apply elem_of_nil in Hb].
  destruct (enricher_sublist w records)
    as (kept & processed' & Henr & _ & Hkept).
  destruct (approval_gate_done w date processed')
    as (approved_ids & rejected_ids & Hgate & Happ & _ & _).
  unfold attempted_batches in Hb.
  rewrite (lambda_handler_projection _ w bucket date records processed'
             approved_ids rejected_ids) in Hb by (done || by rewrite Henr).
  destruct (gate_observations _ (gate_events w date processed'))
    as (Hg & _ & _).
  destruct (generate_report_stores w bucket date
              (select_approved processed' approved_ids)
              (select_rejected processed' rejected_ids)) as [Hst _].
  destruct (store_observations _ Hst) as (Hs & _).
  unfold attempted_batches in Hg, Hs. rewrite Hg, Hs in Hb.
  assert (b ∈ attempted_batches
                (trace (ledger_sync w
                          (select_approved processed' approved_ids))))
    as Hb'.
  { unfold attempted_batches. cbn [app] in Hb.
    by destruct (is_done _); rewrite app_nil_r in Hb. }
  apply ledger_attempted in Hb'.
  assert (r ∈ select_approved processed' approved_ids) as Hsel.
  { apply (elem_of_chunks API_BATCH_SIZE _ b); [|done..].
    unfold API_BATCH_SIZE. lia. }
  apply list_elem_of_filter in Hsel as [Hok Hin]. split.
  - destruct Hok as [?|?]; [by left|right; by apply Happ].
  - apply mapM_process_record_inv in Hkept as [_ Hkept].
    apply list_elem_of_lookup in Hin as [k Hk].
    destruct (Forall2_lookup_r _ _ _ _ _ Hkept Hk)
      as (r0 & _ & tx & tl & ->).
    by repeat split.
Qed.

Lemma ledger_receives_only_approved_witness :
  amount (with_enrichment (sale "S-0002" 2000000) 200000 2200000)
    < HIGH_VALUE_THRESHOLD ∨
  id (with_enrichment (sale "S-0002" 2000000) 200000 2200000)
    ∈ approved_ids_of (callback_payload sample_world).
Proof.
  refine (proj1 (ledger_receives_only_approved sample_world "bucket"
                   "2025-01-15"
                   [with_enrichment (sale "S-0001" 15) 1 16;
                    with_enrichment (sale "S-0002" 2000000) 200000 2200000;
                    with_enrichment (sale "S-0004" 999999) 99999 1099998]
                   _ _ _)).
  - vm_compute. left.
  - right. left.
Defined.

(** A run that completes went through every stage. *)
Lemma lambda_handler_done_inv (w : world) (bucket date : string)
    (resp : response) :
  result (lambda_handler w bucket date) = Done resp →
  ∃ records processed approved_ids rejected_ids rep,
    s3_objects w bucket ("sales/" +:+ date +:+ ".csv") = Some records ∧
    enricher w records = ([], Done processed) ∧
    result (approval_gate w date processed)
      = Done (approved_ids, rejected_ids) ∧
    ledger_sync w (select_approved processed approved_ids)
      = (sync_trace (chunks API_BATCH_SIZE
                       (select_approved processed approved_ids)), Done tt) ∧
    result (generate_report w bucket date
              (select_approved processed approved_ids)
              (select_rejected processed rejected_ids)) = Done rep ∧
    resp = {| resp_status := "completed";
              resp_date := date;
              resp_total_records := length records;
              resp_approved_records :=
                length (select_approved processed approved_ids);
              resp_rejected_records :=
                length (select_rejected processed rejected_ids);
              resp_report_url := summary_url rep |}.
Proof.
  destruct (s3_objects w bucket ("sales/" +:+ date +:+ ".csv"))
    as [records|] eqn:Hfetch;
    [|by rewrite lambda_handler_no_object by done].
  destruct (enricher_sublist w records) as (kept & processed & Henr & _).
  destruct (approval_gate_done w date processed)
    as (approved_ids & rejected_ids & Hgate & _).
  rewrite (lambda_handler_run w bucket date records processed
             approved_ids rejected_ids) by (done || by rewrite Henr).
  destruct (ledger_sync_cases w (select_approved processed approved_ids))
    as [[Hl _]|(k & _ & _ & _ & Hl)]; rewrite Hl; [|done].
  cbn [result snd].
  destruct (generate_report w bucket date _ _) as [tr [rep|e]] eqn:Er;
    cbn [result snd]; [|done].
  intros [= <-].
  exists records, processed, approved_ids, rejected_ids, rep.
  by rewrite Er.
Qed.

(** X3: in a run that completes, the ledger calls that returned carry,
    put end to end, exactly the approved records (amount below the
    threshold, or id approved by the decision payload) of what the
    Enricher returned, each once and in order; the approved count of the
    response is their number. *)
Theorem completed_run_delivers_approved (w : world) (bucket date : string)
    (records processed : list record) (resp : response) :
  s3_objects w bucket ("sales/" +:+ date +:+ ".csv") = Some records →
  result (enricher w records) = Done processed →
  result (lambda_handler w bucket date) = Done resp →
  concat (synced_batches (trace (lambda_handler w bucket date)))
    = select_approved processed (approved_ids_of (callback_payload w)) ∧
  resp_approved_records resp
    = length (select_approved processed
                (approved_ids_of (callback_payload w))).
Proof.
  intros Hfetch Henr Hdone.
  destruct (lambda_handler_done_inv w bucket date resp Hdone)
    as (records' & processed' & approved_ids & rejected_ids & rep &
        Hfetch' & Henr' & Hgate & Hl & Hrep & ->).
  rewrite Hfetch in Hfetch'. injection Hfetch' as <-.
  rewrite Henr' in Henr. injection Henr as ->.
  destruct (approval_gate_ids w date processed approved_ids rejected_ids
              Hgate) as [Hsel _].
  cbn [resp_approved_records]. rewrite <- Hsel. split; [|done].
  unfold synced_batches.
  rewrite (lambda_handler_projection _ w bucket date records processed
             approved_ids rejected_ids) by (done || by rewrite Henr').
  destruct (gate_observations _ (gate_events w date processed))
    as (_ & Hg & _).
  destruct (generate_report_stores w bucket date
              (select_approved processed approved_ids)
              (select_rejected processed rejected_ids)) as [Hst _].
  destruct (store_observations _ Hst) as (_ & Hs & _).
  unfold synced_batches in Hg, Hs. rewrite Hg, Hs, Hl.
  cbn [trace result fst snd is_done app]. rewrite app_nil_r.
  destruct (sync_trace_projections
              (chunks API_BATCH_SIZE
                 (select_approved processed approved_ids))) as (Hsy & _).
  unfold synced_batches in Hsy. rewrite Hsy.
  apply concat_chunks. unfold API_BATCH_SIZE. lia.
Qed.

Lemma completed_run_delivers_approved_witness :
  concat (synced_batches
            (trace (lambda_handler sample_world "bucket" "2025-01-15")))
  = select_approved sample_processed
      (approved_ids_of (callback_payload sample_world)).
Proof.
  refine (proj1 (completed_run_delivers_approved sample_world "bucket"
                   "2025-01-15" sample_sales sample_processed _ _ _ _)).
  - reflexivity.
  - vm_compute. reflexivity.
  - vm_compute. reflexivity.
Defined.

(** X4: when the batch number [k] is the first one whose ledger call
    raises, the ledger stage ends with the [AttributeError] of the retry
    strategy; the calls that returned carry exactly the first [k * 1000]
    approved records; every batch up to this one was called once and no
    other; and the run is the one the first [(k + 1) * 1000] records alone
    would give: no later record is handed to the ledger, no later wait is
    made. *)
Theorem ledger_stops_at_first_failure (w : world)
    (approved_records : list record) (k : nat) :
  (k * API_BATCH_SIZE < length approved_records)%nat →
  (∀ j, (j < k)%nat → sync_failures w (j * API_BATCH_SIZE) = 0%nat) →
  (0 < sync_failures w (k * API_BATCH_SIZE))%nat →
  result (ledger_sync w approved_records) = Raise AttributeError ∧
  concat (synced_batches (trace (ledger_sync w approved_records)))
    = take (k * API_BATCH_SIZE) approved_records ∧
  attempted_batches (trace (ledger_sync w approved_records))
    = take (S k) (chunks API_BATCH_SIZE approved_records) ∧
  ledger_sync w approved_records
    = ledger_sync w (take (S k * API_BATCH_SIZE) approved_records).
Proof.
  intros Hk Hlt Hge.
  assert (0 < API_BATCH_SIZE)%nat as Hn by (unfold API_BATCH_SIZE; lia).
  rewrite !ledger_sync_chunks, chunks_take by done.
  set (batches := chunks API_BATCH_SIZE approved_records).
  assert (k < length batches)%nat as Hk'
    by by apply (length_chunks_lt API_BATCH_SIZE).
  assert (length (take k batches) = k) as Hlen by (rewrite length_take; lia).
  assert (∀ post, sync_batches w 0 (take k batches ++ batches !!! k :: post)
                  = (failed_sync_trace (take k batches) (batches !!! k),
                     Raise AttributeError)) as Hrun.
  { intros post. apply sync_batches_first_failure.
    - rewrite Hlen. intros j Hj. apply Hlt. lia.
    - by rewrite Hlen. }
  assert (sync_batches w 0 batches
          = (failed_sync_trace (take k batches) (batches !!! k),
             Raise AttributeError)) as ->.
  { rewrite <- (take_drop_middle batches k (batches !!! k)) at 1
      by by apply list_lookup_lookup_total_lt.
    apply Hrun. }
  assert (sync_batches w 0 (take (S k) batches)
          = (failed_sync_trace (take k batches) (batches !!! k),
             Raise AttributeError)) as ->.
  { rewrite (take_S_r batches k (batches !!! k))
      by by apply list_lookup_lookup_total_lt.
    apply Hrun. }
  cbn [result trace fst snd].
  destruct (failed_sync_trace_projections (take k batches) (batches !!! k))
    as (-> & -> & _).
  split; [done|]. split; [by apply concat_take_chunks|]. split; [|done].
  symmetry. apply take_S_r. by apply list_lookup_lookup_total_lt.
Qed.

Lemma ledger_stops_at_first_failure_witness :
  concat (synced_batches
            (trace (ledger_sync second_batch_failing_world
                      (many_sales 2500))))
  = take (1 * API_BATCH_SIZE) (many_sales 2500).
Proof.
  refine (proj1 (proj2 (ledger_stops_at_first_failure
                          second_batch_failing_world (many_sales 2500) 1
                          _ _ _))).
  - vm_compute. lia.
  - intros j Hj. assert (j = 0%nat) as -> by lia. reflexivity.
  - vm_compute. lia.
Defined.

(** The report completes only when the object store accepts its
    objects. *)
Lemma generate_report_done (w : world) (bucket date : string)
    (approved_records rejected_records : list record) (rep : report) :
  result (generate_report w bucket date approved_records rejected_records)
    = Done rep →
  (rejected_records ≠ [] → put_fails w bucket (rejected_key date) = false) ∧
  put_fails w bucket (summary_key date) = false.
Proof.
  unfold generate_report, s3_put_object.
  destruct rejected_records as [|r l];
    destruct (put_fails w bucket (summary_key date));
    try destruct (put_fails w bucket (rejected_key date)); try done.
Qed.



(** ** What the report and the response account for *)

Section Split.
Context (P Q : record → Prop)
  `{!∀ x, Decision (P x), !∀ x, Decision (Q x)}.

Lemma filter_cover_length (l : list record) :
  (∀ x, x ∈ l → P x ∨ Q x) →
  (length l ≤ length (filter P l) + length (filter Q l))%nat.
Proof.
  induction l as [|x l IH]; intros Hl; [done|].
  rewrite !filter_cons.
  specialize (IH (λ y Hy, Hl y (list_elem_of_further _ _ _ Hy))).
  destruct (Hl x ltac:(left)), (decide (P x)), (decide (Q x));
    cbn [length]; try lia; tauto.
Qed.

Lemma filter_split (l : list record) :
  (∀ x, x ∈ l → P x ↔ ¬ Q x) →
  (length (filter P l) + length (filter Q l) = length l)%nat ∧
  sum_amount (filter P l) + sum_amount (filter Q l) = sum_amount l.
Proof.
  induction l as [|x l IH]; intros Hl; [done|].
  rewrite !filter_cons.
  destruct (IH (λ y Hy, Hl y (list_elem_of_further _ _ _ Hy))) as [IH1 IH2].
  pose proof (Hl x ltac:(left)) as Hx.
  destruct (decide (P x)), (decide (Q x)); try tauto;
    rewrite !sum_amount_cons; cbn [length]; split; lia.
Qed.

Lemma filter_both_length (l : list record) (x : record) :
  (∀ y, y ∈ l → P y ∨ Q y) → x ∈ l → P x → Q x →
  (length l < length (filter P l) + length (filter Q l))%nat.
Proof.
  intros Hl Hx HP HQ. induction l as [|y l IH]; [by apply elem_of_nil in Hx|].
  rewrite !filter_cons.
  pose proof (filter_cover_length l
                (λ z Hz, Hl z (list_elem_of_further _ _ _ Hz))) as Hle.
  apply elem_of_cons in Hx as [<-|Hx].
  - destruct (decide (P x)); [|done]. destruct (decide (Q x)); [|done].
    cbn [length]. lia.
  - specialize (IH (λ z Hz, Hl z (list_elem_of_further _ _ _ Hz)) Hx).
    destruct (Hl y ltac:(left)), (decide (P y)), (decide (Q y));
      cbn [length]; try lia; tauto.
Qed.

End Split.

Lemma enriched_same (l out : list record) :
  Forall2 (λ r r', ∃ tx tl, r' = with_enrichment r tx tl) l out →
  id <$> out = id <$> l ∧ amount <$> out = amount <$> l ∧
  sum_amount out = sum_amount l.
Proof.
  induction 1 as [|r r' l out (tx & tl & ->) _ (IH1 & IH2 & IH3)]; [done|].
  cbn [fmap list_fmap]. rewrite !sum_amount_cons, IH3.
  fold (id <$> out) (id <$> l) (amount <$> out) (amount <$> l).
  by rewrite IH1, IH2.
Qed.

Lemma sum_Z_app (l1 l2 : list Z) : sum_Z (l1 ++ l2) = sum_Z l1 + sum_Z l2.
Proof.
  unfold sum_Z. induction l1 as [|x l1 IH]; [done|].
  cbn [app foldr]. lia.
Qed.

(** Every record is approved or rejected by the ids the gate resolves
    with; with unique ids, never both. *)
Lemma approved_or_rejected (w : world) (date : string)
    (processed : list record) (approved_ids rejected_ids : list string)
    (r : record) :
  result (approval_gate w date processed) = Done (approved_ids, rejected_ids) →
  r ∈ processed →
  ((amount r < HIGH_VALUE_THRESHOLD ∨ id r ∈ approved_ids) ∨
   id r ∈ rejected_ids) ∧
  (NoDup (id <$> processed) →
   (amount r < HIGH_VALUE_THRESHOLD ∨ id r ∈ approved_ids) ↔
   ¬ id r ∈ rejected_ids).
Proof.
  intros Hgate Hr.
  destruct (approval_gate_done w date processed)
    as (a & rj & Hgate' & _ & Hrej & _).
  rewrite Hgate in Hgate'. injection Hgate' as <- <-.
  assert (HIGH_VALUE_THRESHOLD ≤ amount r →
          id r ∈ high_value_ids_of processed) as Hhigh.
  { intros Hge. apply elem_of_high_value_ids. by exists r. }
  split.
  - destruct (decide (amount r < HIGH_VALUE_THRESHOLD)); [by left; left|].
    destruct (decide (id r ∈ approved_ids)); [by left; right|].
    right. apply Hrej. split; [apply Hhigh; lia|done].
  - intros Hnd. rewrite Hrej, elem_of_high_value_ids. split.
    + intros [Hlt|Hin] [(r0 & Hr0 & Hid & Hamt) Hnot]; [|done].
      assert (r0 = r) as -> by by apply (id_unique processed). lia.
    + intros Hnot.
      destruct (decide (amount r < HIGH_VALUE_THRESHOLD)); [by left|].
      destruct (decide (id r ∈ approved_ids)); [by right|].
      destruct Hnot. split; [|done]. exists r. split; [done|].
      split; [done|lia].
Qed.

(** X6: a run that completes stores exactly one summary, whose two counts
    are those of the response; the response counts the rows read; every
    record the Enricher returned is counted at least once, as approved or
    as rejected, and there are no more of them than rows; when the ids of
    the rows are unique each such record is counted exactly once: the two
    counts add up to their number and the two totals to the sum of their
    amounts; and when every row enriches they are as many as the rows,
    with the same amounts. *)
Theorem report_accounts_for_every_record (w : world) (bucket date : string)
    (records processed : list record) (resp : response) :
  s3_objects w bucket ("sales/" +:+ date +:+ ".csv") = Some records →
  result (enricher w records) = Done processed →
  result (lambda_handler w bucket date) = Done resp →
  ∃ approved_sales rejected_sales : Z,
    stored_summaries (trace (lambda_handler w bucket date))
      = [SummaryReport date (resp_approved_records resp)
           (resp_rejected_records resp) approved_sales rejected_sales] ∧
    resp_total_records resp = length records ∧
    (length processed
       ≤ resp_approved_records resp + resp_rejected_records resp)%nat ∧
    (length processed ≤ length records)%nat ∧
    (NoDup (id <$> records) →
     (resp_approved_records resp + resp_rejected_records resp
        = length processed)%nat ∧
     approved_sales + rejected_sales = sum_Z (amount <$> processed)) ∧
    (mapM process_record records = ([], Done processed) →
     length processed = length records ∧
     sum_Z (amount <$> processed) = sum_Z (amount <$> records)).
Proof.
  intros Hfetch Henr Hdone.
  destruct (lambda_handler_done_inv w bucket date resp Hdone)
    as (records' & processed' & approved_ids & rejected_ids & rep &
        Hfetch' & Henr' & Hgate & Hl & Hrep & ->).
  rewrite Hfetch in Hfetch'. injection Hfetch' as <-.
  rewrite Henr' in Henr. injection Henr as ->.
  destruct (enricher_sublist w records)
    as (kept & processed' & Henr & Hsub & Hkept).
  rewrite Henr' in Henr. injection Henr as <-.
  apply mapM_process_record_inv in Hkept as [_ Hkept].
  pose proof (Forall2_length _ _ _ Hkept) as Hlen.
  apply enriched_same in Hkept as (Hids & _ & _).
  exists (sum_amount (select_approved processed approved_ids)),
         (sum_amount (select_rejected processed rejected_ids)).
  cbn [resp_total_records resp_approved_records resp_rejected_records].
  split; [|split; [done|split; [|split; [|split]]]].
  - unfold stored_summaries.
    rewrite (lambda_handler_projection _ w bucket date records processed
               approved_ids rejected_ids) by (done || by rewrite Henr').
    destruct (gate_observations _ (gate_events w date processed))
      as (_ & _ & Hg).
    destruct (ledger_observations _
                (ledger_events w (select_approved processed approved_ids)))
      as (Hle & _).
    unfold stored_summaries in Hg, Hle. rewrite Hg, Hle, Hl.
    cbn [result snd is_done app].
    destruct (generate_report_done _ _ _ _ _ _ Hrep) as [Hd Hs].
    rewrite generate_report_run by done. cbn [trace fst].
    by destruct (select_rejected processed rejected_ids).
  - apply filter_cover_length. intros r Hr.
    by destruct (approved_or_rejected w date processed approved_ids
                   rejected_ids r Hgate Hr) as [? _].
  - rewrite <- Hlen. by apply sublist_length.
  - intros Hnd.
    assert (NoDup (id <$> processed)) as Hnd'.
    { rewrite Hids.
      apply (sublist_NoDup (id <$> kept) (id <$> records)); [done|].
      by apply (fmap_sublist id). }
    rewrite <- sum_amount_sum.
    apply filter_split. intros r Hr.
    destruct (approved_or_rejected w date processed approved_ids
                rejected_ids r Hgate Hr) as [_ H].
    by apply H.
  - intros Hall.
    apply mapM_process_record_inv in Hall as [_ Hall].
    split; [symmetry; by eapply Forall2_length|].
    apply enriched_same in Hall as (_ & -> & _). done.
Qed.

Lemma report_accounts_for_every_record_witness :
  ∃ approved_sales rejected_sales : Z,
    stored_summaries
      (trace (lambda_handler sample_world "bucket" "2025-01-15"))
      = [SummaryReport "2025-01-15" 3 1 approved_sales rejected_sales] ∧
    4%nat = length sample_sales ∧
    (length sample_processed ≤ 3 + 1)%nat ∧
    (length sample_processed ≤ length sample_sales)%nat ∧
    (NoDup (id <$> sample_sales) →
     (3 + 1 = length sample_processed)%nat ∧
     approved_sales + rejected_sales = sum_Z (amount <$> sample_processed)) ∧
    (mapM process_record sample_sales = ([], Done sample_processed) →
     length sample_processed = length sample_sales ∧
     sum_Z (amount <$> sample_processed) = sum_Z (amount <$> sample_sales)).
Proof.
  apply (report_accounts_for_every_record sample_world "bucket" "2025-01-15"
           sample_sales sample_processed
           {| resp_status := "completed";
              resp_date := "2025-01-15";
              resp_total_records := 4;
              resp_approved_records := 3;
              resp_rejected_records := 1;
              resp_report_url := "s3://bucket/reports/2025-01-15-report.json"
           |}).
  - reflexivity.
  - vm_compute. reflexivity.
  - vm_compute. reflexivity.
Defined.

(** X7: uniqueness of the ids is needed: a record below the threshold that
    shares its id with a record at or above it whose id the decision does
    not approve is handed to the ledger as approved and is listed among
    the rejected records as well. *)
Theorem shared_id_approved_and_rejected (w : world) (date : string)
    (processed : list record) (approved_ids rejected_ids : list string)
    (r1 r2 : record) :
  result (approval_gate w date processed) = Done (approved_ids, rejected_ids) →
  r1 ∈ processed → r2 ∈ processed → id r1 = id r2 →
  amount r1 < HIGH_VALUE_THRESHOLD → HIGH_VALUE_THRESHOLD ≤ amount r2 →
  id r2 ∉ approved_ids_of (callback_payload w) →
  r1 ∈ select_approved processed approved_ids ∧
  r1 ∈ select_rejected processed rejected_ids ∧
  (length processed
   < length (select_approved processed approved_ids)
     + length (select_rejected processed rejected_ids))%nat.
Proof.
  intros Hgate H1 H2 Hid Hlo Hhi Hnot.
  destruct (approval_gate_ids w date processed approved_ids rejected_ids
              Hgate) as [_ ->].
  assert (r1 ∈ select_approved processed approved_ids) as Ha.
  { apply list_elem_of_filter. split; [by left|done]. }
  assert (r1 ∈ select_rejected processed
                 (filter (λ i, i ∉ approved_ids_of (callback_payload w))
                         (high_value_ids_of processed))) as Hr.
  { apply list_elem_of_filter. split; [|done].
    apply list_elem_of_filter. rewrite Hid. split; [done|].
    apply elem_of_high_value_ids. by exists r2. }
  split; [done|]. split; [done|].
  apply list_elem_of_filter in Ha as [Ha _].
  apply list_elem_of_filter in Hr as [Hr _].
  apply (filter_both_length _ _ processed r1); [|done..].
  intros r Hin.
  by destruct (approved_or_rejected w date processed approved_ids _ r
                 Hgate Hin) as [H _].
Qed.

Lemma shared_id_approved_and_rejected_witness :
  with_enrichment (sale "S-1" 500) 50 550
    ∈ select_approved
        [with_enrichment (sale "S-1" 500) 50 550;
         with_enrichment (sale "S-1" 2000000) 200000 2200000] [] ∧
  with_enrichment (sale "S-1" 500) 50 550
    ∈ select_rejected
        [with_enrichment (sale "S-1" 500) 50 550;
         with_enrichment (sale "S-1" 2000000) 200000 2200000] ["S-1"].
Proof.
  pose proof (shared_id_approved_and_rejected failing_world "2025-01-15"
    [with_enrichment (sale "S-1" 500) 50 550;
     with_enrichment (sale "S-1" 2000000) 200000 2200000] [] ["S-1"]
    (with_enrichment (sale "S-1" 500) 50 550)
    (with_enrichment (sale "S-1" 2000000) 200000 2200000)) as H.
  destruct H as (H1 & H2 & _).
  - vm_compute. reflexivity.
  - left.
  - right. left.
  - reflexivity.
  - vm_compute. reflexivity.
  - vm_compute. discriminate.
  - intros H. by apply elem_of_nil in H.
  - by split.
Defined.

(** ** When the approver is asked *)

Lemma stores_no_request (stores : list event) :
  Forall (λ e, is_store_event e = true) stores →
  approval_requests stores = [] ∧ created_callbacks stores = [].
Proof. intros H. by destruct (store_observations _ H) as (_ & _ & ? & ?). Qed.

(** X8: once the rows are read, the approver is asked exactly when some
    record the Enricher returned has an amount of at least the threshold,
    and then once, through one callback, with the number of such records;
    this holds whether the ledger stage succeeds afterwards or not.  When
    every row enriches, this is the number of rows with such an amount. *)
Theorem approval_requested_once (w : world) (bucket date : string)
    (records processed : list record) :
  s3_objects w bucket ("sales/" +:+ date +:+ ".csv") = Some records →
  result (enricher w records) = Done processed →
  let n := length (filter (λ r, HIGH_VALUE_THRESHOLD ≤ amount r) processed) in
  approval_requests (trace (lambda_handler w bucket date))
    = (if decide (n = 0%nat) then [] else [n]) ∧
  created_callbacks (trace (lambda_handler w bucket date))
    = (if decide (n = 0%nat) then []
       else ["high-value-transaction-approval"]) ∧
  (mapM process_record records = ([], Done processed) →
   n = length (filter (λ r, HIGH_VALUE_THRESHOLD ≤ amount r) records)).
Proof.
  intros Hfetch Henr n.
  destruct (approval_gate_done w date processed)
    as (approved_ids & rejected_ids & Hgate & _).
  destruct (generate_report_stores w bucket date
              (select_approved processed approved_ids)
              (select_rejected processed rejected_ids)) as [Hst _].
  destruct (stores_no_request _ Hst) as [Hs1 Hs2].
  destruct (ledger_observations _
              (ledger_events w (select_approved processed approved_ids)))
    as (_ & Hl1 & Hl2).
  unfold approval_requests, created_callbacks in *.
  rewrite !(lambda_handler_projection _ w bucket date records processed
              approved_ids rejected_ids) by done.
  rewrite Hs1, Hs2, Hl1, Hl2.
  assert (length (high_value_ids_of processed) = n) as Hn
    by (unfold high_value_ids_of; by rewrite length_fmap).
  rewrite approval_gate_run.
  split; [|split].
  - destruct (high_value_ids_of processed) as [|h H] eqn:EH;
      cbn [length] in Hn; rewrite <- Hn;
      destruct (is_done _); cbn; done.
  - destruct (high_value_ids_of processed) as [|h H] eqn:EH;
      cbn [length] in Hn; rewrite <- Hn;
      destruct (is_done _); cbn; done.
  - intros Hall. apply mapM_process_record_inv in Hall as [_ Hall].
    unfold n. clear -Hall. induction Hall as [|r r' l out (tx & tl & ->) _ IH];
      [done|].
    rewrite !filter_cons. cbn [with_enrichment amount].
    destruct (decide (HIGH_VALUE_THRESHOLD ≤ amount r)); cbn [length];
      by rewrite IH.
Qed.

Lemma approval_requested_once_witness :
  approval_requests (trace (lambda_handler sample_world "bucket" "2025-01-15"))
  = (if decide (length (filter (λ r, HIGH_VALUE_THRESHOLD ≤ amount r)
                          sample_processed) = 0%nat)
     then []
     else [length (filter (λ r, HIGH_VALUE_THRESHOLD ≤ amount r)
                     sample_processed)]).
Proof.
  refine (proj1 (approval_requested_once sample_world "bucket" "2025-01-15"
                   sample_sales sample_processed _ _)).
  - reflexivity.
  - vm_compute. reflexivity.
Defined.

(** ** Amounts outside the positive range *)

(** The sign of the rounded value is the sign given; it plays no part in
    the rounding. *)
Lemma binary_round_aux_sign (s : bool) (mx ex : Z) (lx : location) :
  binary_round_aux Py.prec Py.emax s mx ex lx
  = set_sign s (binary_round_aux Py.prec Py.emax false mx ex lx).
Proof.
  unfold binary_round_aux.
  destruct (shr_fexp Py.prec Py.emax mx ex lx) as [mrs' e'].
  destruct (shr_fexp Py.prec Py.emax _ e' loc_Exact) as [mrs'' e''].
  destruct (shr_m mrs''); [done| |done].
  by destruct (e'' <=? Py.emax - Py.prec).
Qed.

Lemma float_of_int_opp (a : Z) :
  0 < a → Py.float_of_int (- a) = set_sign true <$> Py.float_of_int a.
Proof.
  intros Ha. destruct a as [|p|p]; try lia.
  change (- Z.pos p) with (Z.neg p).
  unfold Py.float_of_int, binary_normalize, binary_round.
  destruct (shl_align p 0 _) as [mz ez].
  rewrite (binary_round_aux_sign true).
  by destruct (binary_round_aux Py.prec Py.emax false (Z.pos mz) ez loc_Exact).
Qed.

Lemma float_of_int_sign (a : Z) (x : spec_float) :
  0 < a → Py.float_of_int a = Some x → x = set_sign false x.
Proof.
  intros Ha. destruct a as [|p|p]; try lia.
  unfold Py.float_of_int, binary_normalize, binary_round.
  destruct (shl_align p 0 _) as [mz ez].
  rewrite (binary_round_aux_sign false).
  destruct (binary_round_aux Py.prec Py.emax false (Z.pos mz) ez loc_Exact);
    cbn [set_sign]; by intros [= <-].
Qed.

(** [int((-a) * c) = - int(a * c)]: rounding and truncation are symmetric
    about zero. *)
Lemma int_mul_float_opp (a : Z) (M : positive) (e : Z) :
  0 < a →
  Py.int_mul_float (- a) (S754_finite false M e)
  = Z.opp <$> Py.int_mul_float a (S754_finite false M e).
Proof.
  intros Ha. unfold Py.int_mul_float. rewrite float_of_int_opp by done.
  destruct (Py.float_of_int a) as [x|] eqn:Ex; [|done].
  apply float_of_int_sign in Ex; [|done]. cbn [fmap option_fmap option_map].
  destruct x as [s|s| |s m e']; cbn [set_sign] in *; try done.
  injection Ex as ->. unfold Py.float_mul. cbn [SFmul xorb].
  rewrite (binary_round_aux_sign true).
  pose proof (binary_round_aux_sign false (Z.pos (m * M)) (e' + e) loc_Exact)
    as Hy.
  destruct (binary_round_aux Py.prec Py.emax false (Z.pos (m * M)) (e' + e)
              loc_Exact) as [s'|s'| |s' m' e'']; cbn [set_sign] in *;
    try done.
  injection Hy as ->. done.
Qed.

Lemma int_mul_float_zero (M : positive) (e : Z) :
  Py.int_mul_float 0 (S754_finite false M e) = Some 0.
Proof. reflexivity. Qed.

(** A mantissa whose rounding needs an exponent above 971 overflows. *)
Lemma binary_round_aux_overflow (mx ex : Z) :
  0 < mx → 53 < Zdigits2 mx → 971 < ex + (Zdigits2 mx - 53) →
  binary_round_aux Py.prec Py.emax false mx ex loc_Exact
  = S754_infinity false.
Proof.
  intros Hmx HD Hhi.
  pose proof (Zdigits2_bounds mx Hmx) as [HDlo HDhi].
  set (s := Zdigits2 mx - 53) in *.
  assert (0 < s) as Hs by lia.
  assert (0 < 2 ^ s) as Hps by lia.
  assert (2 ^ (Zdigits2 mx - 1) = 2 ^ 52 * 2 ^ s) as E1.
  { rewrite <- Z.pow_add_r by lia. f_equal. lia. }
  assert (2 ^ Zdigits2 mx = 2 ^ 53 * 2 ^ s) as E2.
  { rewrite <- Z.pow_add_r by lia. f_equal. lia. }
  assert (2 ^ 52 ≤ mx / 2 ^ s < 2 ^ 53) as [Hm1lo Hm1hi].
  { split; [apply Z.div_le_lower_bound|apply Z.div_lt_upper_bound]; lia. }
  unfold binary_round_aux, shr_fexp, fexp, emin, Py.prec, Py.emax.
  replace (Z.max (Zdigits2 mx + ex - 53) (3 - 1024 - 53) - ex) with s by lia.
  cbn [shr_record_of_loc].
  destruct (shr_pos {| shr_m := mx; shr_r := false; shr_s := false |} ex s Hs)
    as (mrs' & Heq & Hm & Hr); [cbn; lia|].
  cbn [shr_m] in Hm, Hr. rewrite Heq.
  pose proof (round_nearest_even_cases mrs') as Hrne. cbv zeta in Hrne.
  set (m2 := round_nearest_even (shr_m mrs') (loc_of_shr_record mrs')) in *.
  rewrite Hm in Hrne.
  assert (2 ^ 52 ≤ m2 ≤ 2 ^ 53) as [Hm2lo Hm2hi] by lia.
  destruct (Z.eq_dec m2 (2 ^ 53)) as [E53|N53].
  - rewrite E53.
    replace (Z.max (Zdigits2 (2 ^ 53) + (ex + s) - 53) (3 - 1024 - 53)
             - (ex + s)) with 1
      by (change (Zdigits2 (2 ^ 53)) with 54; lia).
    cbn [shr SpecFloat.iter_pos shr_1 shr_m].
    destruct (Z.leb_spec (ex + s + 1) (1024 - 53)); [lia|done].
  - assert (Zdigits2 m2 = 53) as ->.
    { apply Zdigits2_unique; [lia|]. change (53 - 1) with 52. lia. }
    replace (Z.max (53 + (ex + s) - 53) (3 - 1024 - 53) - (ex + s))
      with 0 by lia.
    cbn [shr shr_record_of_loc shr_m].
    destruct m2 as [|p|p]; try lia.
    destruct (Z.leb_spec (ex + s) (1024 - 53)); [lia|done].
Qed.

(** [float(a)] raises for an int of [2^1024] or more. *)
Lemma float_of_int_overflow (a : Z) :
  2 ^ 1024 ≤ a → Py.float_of_int a = None.
Proof.
  intros Ha. assert (0 < a) as Ha0 by lia.
  destruct a as [|p|p]; try lia.
  pose proof (digits2_pos_bounds p) as [Hlo Hhi].
  assert (1024 < Z.pos (digits2_pos p)) as Hd
    by (apply (Z.pow_lt_mono_r_iff 2); lia).
  unfold Py.float_of_int, binary_normalize, binary_round, shl_align, fexp,
    emin, Py.prec, Py.emax.
  replace (Z.max (Z.pos (digits2_pos p) + 0 - 53) (3 - 1024 - 53) - 0)
    with (Z.pos (digits2_pos p) - 53) by lia.
  destruct (Z.pos (digits2_pos p) - 53) as [|q|q] eqn:E; try lia.
  change (binary_round_aux 53 1024) with (binary_round_aux Py.prec Py.emax).
  rewrite binary_round_aux_overflow; [done|lia|cbn [Zdigits2]; lia..].
Qed.

Lemma process_record_overflow (r : record) :
  2 ^ 1024 ≤ Z.abs (amount r) →
  process_record r = ([], Raise OverflowError).
Proof.
  intros Ha. unfold process_record, Py.int_mul_float.
  assert (Py.float_of_int (amount r) = None) as ->; [|done].
  destruct (Z_le_gt_dec 0 (amount r)) as [Hpos|Hneg].
  - apply float_of_int_overflow. lia.
  - replace (amount r) with (- - amount r) by lia.
    rewrite float_of_int_opp by lia.
    rewrite float_of_int_overflow by lia. done.
Qed.

Lemma mapM_process_record_each (l out : list record) (t : list event) :
  mapM process_record l = (t, Done out) →
  ∀ r, r ∈ l → ∃ r', process_record r = ([], Done r').
Proof.
  revert t out. induction l as [|x l IH]; intros t out.
  - intros _ r Hr. by apply elem_of_nil in Hr.
  - rewrite mapM_cons. intros H.
    apply bind_done_inv in H as (t1 & x' & t2 & Hx & H & ->).
    apply bind_done_inv in H as (t3 & k & t4 & Hl & H & ->).
    intros r [->|Hr]%elem_of_cons.
    + apply process_record_inv in Hx as Hx'. destruct Hx' as [-> _].
      by exists x'.
    + by apply (IH t3 k).
Qed.

(** X9: enrichment truncates towards zero: for every amount [a] with
    [|a| < 511,772,684,928,469], zero and negative amounts included, the
    tax is [a] divided by 10 and the total [11 * a] divided by 10, both
    rounded towards zero. *)
Theorem process_record_truncates (r : record) :
  Z.abs (amount r) < 511772684928469 →
  process_record r =
    ([], Done (with_enrichment r (amount r ÷ 10) (11 * amount r ÷ 10))).
Proof.
  intros Ha. apply process_record_done.
  - destruct (Z.lt_trichotomy (amount r) 0) as [Hneg|[->|Hpos]].
    + replace (amount r) with (- - amount r) at 1 by lia.
      unfold Py.float_0_1. rewrite int_mul_float_opp by lia.
      fold Py.float_0_1. rewrite int_mul_float_0_1 by lia.
      cbn [fmap option_fmap option_map]. f_equal.
      rewrite <- Z.quot_div_nonneg by lia.
      rewrite Z.quot_opp_l by lia. lia.
    + done.
    + rewrite int_mul_float_0_1 by lia. f_equal.
      by rewrite Z.quot_div_nonneg by lia.
  - destruct (Z.lt_trichotomy (amount r) 0) as [Hneg|[->|Hpos]].
    + replace (amount r) with (- - amount r) at 1 by lia.
      unfold Py.float_1_1. rewrite int_mul_float_opp by lia.
      fold Py.float_1_1. rewrite int_mul_float_1_1 by lia.
      cbn [fmap option_fmap option_map]. f_equal.
      rewrite <- Z.quot_div_nonneg by lia.
      replace (11 * - amount r) with (- (11 * amount r)) by lia.
      rewrite Z.quot_opp_l by lia. lia.
    + done.
    + rewrite int_mul_float_1_1 by lia. f_equal.
      by rewrite Z.quot_div_nonneg by lia.
Qed.

Lemma process_record_truncates_witness :
  process_record (sale "R-1" (-15)) =
    ([], Done (with_enrichment (sale "R-1" (-15)) (-1) (-16))).
Proof.
  apply (process_record_truncates (sale "R-1" (-15))). cbn. lia.
Defined.


(** X10: an amount of magnitude [2^1024] or more cannot be converted to a
    double and [process_record] raises [OverflowError]; the Enricher does
    not fail for that, it leaves the batch of the row out.  When the rows
    fit in one batch nothing is left: the run goes on with no record, and
    with an object store that accepts the summary it completes, counting
    the rows read, no approved and no rejected record, and stores a summary
    of zeros. *)
Theorem overflow_row_is_dropped (w : world) (bucket date : string)
    (records : list record) (r : record) :
  s3_objects w bucket ("sales/" +:+ date +:+ ".csv") = Some records →
  r ∈ records → 2 ^ 1024 ≤ Z.abs (amount r) →
  (length records ≤ BATCH_SIZE)%nat →
  put_fails w bucket (summary_key date) = false →
  process_record r = ([], Raise OverflowError) ∧
  enricher w records = ([], Done []) ∧
  lambda_handler w bucket date =
    ([EvGetObject bucket ("sales/" +:+ date +:+ ".csv");
      EvPutObject bucket (summary_key date) (SummaryReport date 0 0 0 0)],
     Done {| resp_status := "completed";
             resp_date := date;
             resp_total_records := length records;
             resp_approved_records := 0;
             resp_rejected_records := 0;
             resp_report_url := s3_url bucket (summary_key date) |}).
Proof.
  intros Hfetch Hr Ha Hlen Hput.
  pose proof (process_record_overflow r Ha) as Hraise. split; [done|].
  assert (enricher w records = ([], Done [])) as Henr.
  { rewrite enricher_run.
    assert (chunks BATCH_SIZE records = [records]) as ->.
    { rewrite chunks_cons;
        [|unfold BATCH_SIZE; lia|intros ->; by apply elem_of_nil in Hr].
      by rewrite take_ge, drop_ge, chunks_nil by lia. }
    assert (mapM process_record records = ([], Raise OverflowError)) as Hm.
    { destruct (mapM_process_record_cases records) as [[out Hout]|H];
        [|done].
      destruct (mapM_process_record_each _ _ _ Hout r Hr) as [r' Hr'].
      by rewrite Hraise in Hr'. }
    cbn [forallb imap omap list_omap]. unfold kept_result. by rewrite Hm. }
  split; [done|].
  rewrite (lambda_handler_run w bucket date records [] [] []);
    [|done|by rewrite Henr|done].
  change (ledger_sync w (select_approved [] [])) with (@pair _ (outcome unit) (@nil event) (Done tt)).
  cbn iota. rewrite generate_report_run by done. done.
Qed.

Lemma overflow_row_is_dropped_witness :
  lambda_handler overflow_world "bucket" "2025-01-15"
  = ([EvGetObject "bucket" "sales/2025-01-15.csv";
      EvPutObject "bucket" "reports/2025-01-15-report.json"
        (SummaryReport "2025-01-15" 0 0 0 0)],
     Done {| resp_status := "completed";
             resp_date := "2025-01-15";
             resp_total_records := 2;
             resp_approved_records := 0;
             resp_rejected_records := 0;
             resp_report_url :=
               "s3://bucket/reports/2025-01-15-report.json" |}).
Proof.
  refine (proj2 (proj2 (overflow_row_is_dropped overflow_world "bucket"
                          "2025-01-15" overflow_sales
                          (sale "S-0002" (2 ^ 1024)) _ _ _ _ _))).
  - reflexivity.
  - right. left.
  - vm_compute. discriminate.
  - vm_compute. lia.
  - reflexivity.
Defined.

(** ** The cost of the ledger stage *)

Lemma sync_trace_waited (batches : list (list record)) :
  0 ≤ waited_seconds (sync_trace batches)
    ≤ 10 * Z.of_nat (length batches).
Proof.
  induction batches as [|b rest IH]; [done|].
  cbn [sync_trace]. destruct rest as [|b' rest'].
  - cbn. lia.
  - unfold waited_seconds, sum_Z in *. cbn [omap list_omap foldr] in *.
    unfold API_RATE_LIMIT_WAIT_SECONDS. cbn [length] in *. lia.
Qed.

Lemma failed_sync_trace_waited (pre : list (list record)) (b : list record) :
  waited_seconds (failed_sync_trace pre b) = 10 * Z.of_nat (length pre).
Proof.
  unfold failed_sync_trace.
  induction pre as [|p pre IH]; [done|].
  cbn [fmap list_fmap concat app].
  unfold waited_seconds, sum_Z in *. cbn [omap list_omap foldr] in *.
  unfold API_RATE_LIMIT_WAIT_SECONDS in *. cbn [length]. lia.
Qed.

(** X11: whatever the ledger answers, the ledger stage hands it batches of
    1 to 1000 records, calls it at most 5 times per batch, and spends at
    most 85 seconds per batch on backoff delays and rate-limit waits;
    the number of batches is [ceil(len / 1000)]. *)
Theorem ledger_sync_cost (w : world) (approved_records : list record) :
  let t := trace (ledger_sync w approved_records) in
  let batches := ((length approved_records + API_BATCH_SIZE - 1)
                    `div` API_BATCH_SIZE)%nat in
  Forall (λ b, 0 < length b ≤ API_BATCH_SIZE)%nat (attempted_batches t) ∧
  (length (attempted_batches t) ≤ 5 * batches)%nat ∧
  0 ≤ waited_seconds t ≤ 85 * Z.of_nat batches.
Proof.
  intros t batches.
  assert (0 < API_BATCH_SIZE)%nat as Hn by (unfold API_BATCH_SIZE; lia).
  assert (length (chunks API_BATCH_SIZE approved_records) = batches) as Hlen.
  { rewrite <- (slices_chunks API_BATCH_SIZE approved_records Hn).
    unfold Py.range. by rewrite !length_fmap, length_seq. }
  split.
  - apply Forall_forall. intros b Hb. apply ledger_attempted in Hb.
    destruct (chunks_lengths API_BATCH_SIZE approved_records Hn) as [Hall _].
    by apply (proj1 (Forall_forall _ _) Hall).
  - unfold t.
    destruct (ledger_sync_cases w approved_records)
      as [[-> _]|(k & Hk & _ & _ & ->)]; cbn [trace fst].
    + destruct (sync_trace_projections
                  (chunks API_BATCH_SIZE approved_records))
        as (_ & -> & _).
      pose proof (sync_trace_waited
                    (chunks API_BATCH_SIZE approved_records)) as Hw.
      rewrite Hlen in *. lia.
    + apply (length_chunks_lt API_BATCH_SIZE) in Hk; [|done].
      destruct (failed_sync_trace_projections
                  (take k (chunks API_BATCH_SIZE approved_records))
                  (chunks API_BATCH_SIZE approved_records !!! k))
        as (_ & -> & _).
      rewrite failed_sync_trace_waited, length_app, length_take.
      cbn [length]. rewrite Hlen in *. lia.
Qed.

(** ** The order of the stages *)

Lemma resumed_requests (bucket key : string) (t : list event) :
  Forall (λ e, outside_operations e = false) t →
  object_requests (resumed [EvGetObject bucket key] t)
    = replicate (length (filter (λ e, suspends e = true) t)) (bucket, key) ∧
  filter (λ e, suspends e = true) (resumed [EvGetObject bucket key] t)
    = filter (λ e, suspends e = true) t.
Proof.
  induction 1 as [|e t He _ [IH1 IH2]]; [done|].
  unfold resumed, object_requests in *. cbn [fmap list_fmap concat].
  rewrite filter_cons, filter_app, omap_app, IH1, IH2, filter_cons.
  cbn [omap list_omap].
  destruct e; try done; cbn; done.
Qed.

(** X12: whatever the outside world answers and however the run ends, its
    events come in stages: the request for the object, then the events of
    the approval gate, then those of the ledger stage, then the stores of
    the report, and the object is requested again after every suspension
    of the gate and of the ledger stage, the handler being run again from
    the top: there is one request more than there are suspensions.  The
    requests apart, the ledger is never called before the approval was
    requested, and no store is tried before the last ledger call. *)
Theorem lambda_handler_stages (w : world) (bucket date : string) :
  ∃ gate ledger stores,
    trace (lambda_handler w bucket date) =
      EvGetObject bucket ("sales/" +:+ date +:+ ".csv") ::
      resumed [EvGetObject bucket ("sales/" +:+ date +:+ ".csv")]
        (gate ++ ledger) ++ stores ∧
    Forall (λ e, is_gate_event e = true) gate ∧
    Forall (λ e, is_ledger_event e = true) ledger ∧
    Forall (λ e, is_store_event e = true) stores ∧
    without_requests (trace (lambda_handler w bucket date))
      = gate ++ ledger ++ stores ∧
    object_requests (trace (lambda_handler w bucket date))
      = replicate
          (S (length (filter (λ e, suspends e = true)
                        (trace (lambda_handler w bucket date)))))
          (bucket, "sales/" +:+ date +:+ ".csv").
Proof.
  assert (∀ gate ledger stores,
    Forall (λ e, is_gate_event e = true) gate →
    Forall (λ e, is_ledger_event e = true) ledger →
    Forall (λ e, is_store_event e = true) stores →
    trace (lambda_handler w bucket date) =
      EvGetObject bucket ("sales/" +:+ date +:+ ".csv") ::
      resumed [EvGetObject bucket ("sales/" +:+ date +:+ ".csv")]
        (gate ++ ledger) ++ stores →
    without_requests (trace (lambda_handler w bucket date))
      = gate ++ ledger ++ stores ∧
    object_requests (trace (lambda_handler w bucket date))
      = replicate
          (S (length (filter (λ e, suspends e = true)
                        (trace (lambda_handler w bucket date)))))
          (bucket, "sales/" +:+ date +:+ ".csv")) as Hgen.
  { intros gate ledger stores Hg Hl Hs ->.
    assert (Forall (λ e, outside_operations e = false) (gate ++ ledger))
      as Hin.
    { apply Forall_app. split;
        [by apply gate_not_outside|by apply ledger_not_outside]. }
    pose proof (stores_not_outside _ Hs) as Hso.
    pose proof (stores_not_suspending _ Hs) as Hss.
    destruct (resumed_requests bucket ("sales/" +:+ date +:+ ".csv")
                (gate ++ ledger) Hin) as [Hreq Hsus].
    split.
    - unfold without_requests. rewrite filter_cons, filter_app.
      cbn [outside_operations].
      fold (without_requests
              (resumed [EvGetObject bucket ("sales/" +:+ date +:+ ".csv")]
                 (gate ++ ledger))).
      rewrite without_requests_resumed by by repeat constructor.
      unfold without_requests.
      rewrite (filter_all _ (gate ++ ledger));
        [|by apply Forall_forall].
      rewrite (filter_all _ stores); [|by apply Forall_forall].
      by rewrite app_assoc.
    - unfold object_requests in *. cbn [omap list_omap].
      rewrite omap_app, Hreq, filter_cons_False by done.
      rewrite (filter_app _ (resumed _ _) stores), Hsus.
      rewrite (filter_none _ stores).
      + assert (omap (λ e, match e with
                           | EvGetObject b k => Some (b, k)
                           | _ => None
                           end) stores = []) as ->.
        { clear -Hs. induction Hs as [|e l He _ IH]; [done|].
          by destruct e. }
        by rewrite !app_nil_r.
      + intros e He. apply (proj1 (Forall_forall _ _) Hss) in He.
        by rewrite He. }
  destruct (s3_objects w bucket ("sales/" +:+ date +:+ ".csv"))
    as [records|] eqn:Hfetch.
  - destruct (enricher_sublist w records) as (kept & processed & Henr & _).
    destruct (approval_gate_done w date processed)
      as (approved_ids & rejected_ids & Hgate & _).
    destruct (lambda_handler_trace w bucket date records processed
                approved_ids rejected_ids) as (stores & Ht & Hst & _);
      [done|by rewrite Henr|done|].
    exists (trace (approval_gate w date processed)),
           (trace (ledger_sync w (select_approved processed approved_ids))),
           stores.
    pose proof (gate_events w date processed) as Hg.
    pose proof (ledger_events w (select_approved processed approved_ids))
      as Hl.
    split; [done|]. split; [done|]. split; [done|]. split; [done|].
    by apply Hgen.
  - exists [], [], [].
    assert (trace (lambda_handler w bucket date) =
      EvGetObject bucket ("sales/" +:+ date +:+ ".csv") ::
      resumed [EvGetObject bucket ("sales/" +:+ date +:+ ".csv")]
        ([] ++ []) ++ []) as Ht
      by by rewrite lambda_handler_no_object by done.
    split; [done|]. do 3 (split; [constructor|]).
    by apply Hgen.
Qed.

(** ** Runs that are bound to complete *)



(** ** Examples *)

(** Section 8, the end-to-end scenario: 250 rows are cut into batches of
    100, 100 and 50; two rows are flagged and one of them is approved; 249
    records are approved and one is rejected; the rejected-detail report
    and the summary are stored; the object is requested twice, at the start
    and when the run resumes with the decision. *)
Example scenario_end_to_end :
  length <$> ((λ i, Py.slice scenario_sales i (i + BATCH_SIZE))
              <$> Py.range (length scenario_sales) BATCH_SIZE)
    = [100; 100; 50]%nat ∧
  result (lambda_handler scenario_world "bucket" "2025-01-15") =
    Done {| resp_status := "completed";
            resp_date := "2025-01-15";
            resp_total_records := 250;
            resp_approved_records := 249;
            resp_rejected_records := 1;
            resp_report_url :=
              "s3://bucket/reports/2025-01-15-report.json" |} ∧
  omap (λ e, match e with EvPutObject _ key _ => Some key | _ => None end)
       (trace (lambda_handler scenario_world "bucket" "2025-01-15"))
    = ["rejected/2025-01-15-rejected.json";
       "reports/2025-01-15-report.json"] ∧
  length (object_requests
            (trace (lambda_handler scenario_world "bucket" "2025-01-15")))
    = 2%nat.
Proof. repeat split; vm_compute; reflexivity. Qed.

(** Section 3: the uniqueness of the ids is needed for the partition: of
    two records with the same id, one below and one above the threshold,
    the first is both approved and rejected when the id is not approved. *)
Example partition_needs_unique_ids :
  result (reconcile failing_world "2025-01-15"
            [sale "S-0001" 15; sale "S-0001" 2000000])
  = Done ([sale "S-0001" 15], [sale "S-0001" 15; sale "S-0001" 2000000]).
Proof. vm_compute. reflexivity. Qed.
